(** * Tooltip position resolver and walkthrough store

    A shallow embedding of
    - [src/app/directives/overlay-position-base.directive.ts]
      (class [OverlayPositionBaseDirective]), and
    - the walkthrough module ([AppWalkthroughStore], [TakeTheTourStore],
      [HandHolderBaseDirective], [onScrollStop]),
    followed by the properties that the specification states about them.

    Conventions of the embedding:
    - a TypeScript string is a [string]; the type [OverlayTipPosition] is a
      union of string literals that is erased at run time (the directives cast
      arbitrary attribute values to it), so a tip position is a [string];
    - a step ordinal is a [Z];
    - a pixel quantity is an exact rational [Q];
    - a JS object used as a dictionary is a [gmap string _];
    - a method that can throw returns a [result];
    - a method that changes fields returns the new value of the object;
    - time is counted in whole milliseconds, and a timer fires when it is
      due. *)

From Stdlib Require Import ZArith QArith Qround Qabs Lia List.
From stdpp Require Import gmap strings.
Import ListNotations.

Close Scope Q_scope.
Open Scope string_scope.

(** ** Exceptions *)

(** The two ways in which the resolver can fail: the [Error] built by
    [throwInvalidTutorialTipPosition], and the [TypeError] that the JS run time
    raises when a property of [undefined] is read. *)
Inductive exn : Type :=
| InvalidTutorialTipPosition
| TypeError.

Inductive result (A : Type) : Type :=
| Ok (a : A)
| Throw (e : exn).

Arguments Ok {A} a.
Arguments Throw {A} e.

(** Sequencing: an exception aborts the rest of the method body. *)
#[global] Instance result_bind : MBind result :=
  fun A B k r =>
    match r with
    | Ok a => k a
    | Throw e => Throw e
    end.

(** ** The position resolver ([OverlayPositionBaseDirective]) *)

Module Resolver.

(** [HorizontalConnectionPos] and [VerticalConnectionPos] of the CDK. *)
Inductive HorizontalConnectionPos : Type := Hstart | Hcenter | Hend.
Inductive VerticalConnectionPos : Type := Vtop | Vcenter | Vbottom.

Record OriginConnectionPosition : Type := mkOrigin {
  originX : HorizontalConnectionPos;
  originY : VerticalConnectionPos
}.

Record OverlayConnectionPosition : Type := mkOverlay {
  overlayX : HorizontalConnectionPos;
  overlayY : VerticalConnectionPos
}.

(** The four fields of a [ConnectedPosition] that the resolver fills. *)
Record ConnectedPosition : Type := mkConnected {
  cOriginX : HorizontalConnectionPos;
  cOriginY : VerticalConnectionPos;
  cOverlayX : HorizontalConnectionPos;
  cOverlayY : VerticalConnectionPos
}.

(** The value of [Directionality.value]. *)
Inductive Direction : Type := ltr | rtl.

(** The part of the directive that the resolver reads: [_dir] (which the
    code allows to be absent) and [_tipPosition]. *)
Record Directive : Type := mkDirective {
  _dir : option Direction;
  _tipPosition : string
}.

(** A main position together with its fallback. *)
Record WithFallback (A : Type) : Type := mkWithFallback {
  main : A;
  fallback : A
}.
Arguments mkWithFallback {A} main fallback.
Arguments main {A} w.
Arguments fallback {A} w.

(** [!this._dir || this._dir.value == 'ltr'] *)
Definition isLtr (this : Directive) : bool :=
  match _dir this with
  | None => true
  | Some ltr => true
  | Some rtl => false
  end.

(** [_invertPosition(x, y)] *)
Definition _invertPosition (this : Directive)
    (x : HorizontalConnectionPos) (y : VerticalConnectionPos)
  : HorizontalConnectionPos * VerticalConnectionPos :=
  if (_tipPosition this =? "above") || (_tipPosition this =? "below") then
    match y with
    | Vtop => (x, Vbottom)
    | Vbottom => (x, Vtop)
    | Vcenter => (x, y)
    end
  else
    match x with
    | Hend => (Hstart, y)
    | Hstart => (Hend, y)
    | Hcenter => (x, y)
    end.

(** The [if]/[else if] chain of [_getOrigin].  [None] is the local variable
    [originPosition] left unassigned, which happens when no branch matches
    in a production build. *)
Definition originPosition (production : bool) (this : Directive)
  : result (option OriginConnectionPosition) :=
  let position := _tipPosition this in
  if (position =? "above") || (position =? "below") then
    Ok (Some (mkOrigin Hcenter (if position =? "above" then Vtop else Vbottom)))
  else if (position =? "before")
          || ((position =? "left") && isLtr this)
          || ((position =? "right") && negb (isLtr this)) then
    Ok (Some (mkOrigin Hstart Vcenter))
  else if (position =? "after")
          || ((position =? "right") && isLtr this)
          || ((position =? "left") && negb (isLtr this)) then
    Ok (Some (mkOrigin Hend Vcenter))
  else if negb production then
    Throw InvalidTutorialTipPosition
  else
    Ok None.

(** [_getOrigin()].  The non-null assertion [originPosition!] is erased by
    the compiler, so [originPosition!.originX] on an unassigned variable
    raises a [TypeError]. *)
Definition _getOrigin (production : bool) (this : Directive)
  : result (WithFallback OriginConnectionPosition) :=
  o ← originPosition production this;
  match o with
  | None => Throw TypeError
  | Some op =>
      let '(x, y) := _invertPosition this (originX op) (originY op) in
      Ok (mkWithFallback op (mkOrigin x y))
  end.

(** The [if]/[else if] chain of [_getOverlayPosition]. *)
Definition overlayPosition (production : bool) (this : Directive)
  : result (option OverlayConnectionPosition) :=
  let position := _tipPosition this in
  if position =? "above" then
    Ok (Some (mkOverlay Hcenter Vbottom))
  else if position =? "below" then
    Ok (Some (mkOverlay Hcenter Vtop))
  else if (position =? "before")
          || ((position =? "left") && isLtr this)
          || ((position =? "right") && negb (isLtr this)) then
    Ok (Some (mkOverlay Hend Vcenter))
  else if (position =? "after")
          || ((position =? "right") && isLtr this)
          || ((position =? "left") && negb (isLtr this)) then
    Ok (Some (mkOverlay Hstart Vcenter))
  else if negb production then
    Throw InvalidTutorialTipPosition
  else
    Ok None.

(** [_getOverlayPosition()] *)
Definition _getOverlayPosition (production : bool) (this : Directive)
  : result (WithFallback OverlayConnectionPosition) :=
  o ← overlayPosition production this;
  match o with
  | None => Throw TypeError
  | Some op =>
      let '(x, y) := _invertPosition this (overlayX op) (overlayY op) in
      Ok (mkWithFallback op (mkOverlay x y))
  end.

(** [_addOffset(position)]: the hook of the base class, not overridden. *)
Definition _addOffset (position : ConnectedPosition) : ConnectedPosition :=
  position.

(** [{ ...origin, ...overlay }] *)
Definition spread (o : OriginConnectionPosition)
    (v : OverlayConnectionPosition) : ConnectedPosition :=
  mkConnected (originX o) (originY o) (overlayX v) (overlayY v).

(** [_updatePosition(overlayRef)]: the list handed to [withPositions]. *)
Definition _updatePosition (production : bool) (this : Directive)
  : result (list ConnectedPosition) :=
  origin ← _getOrigin production this;
  overlay ← _getOverlayPosition production this;
  Ok [ _addOffset (spread (main origin) (main overlay));
       _addOffset (spread (fallback origin) (fallback overlay)) ].

(** The six literals of [OverlayTipPosition]. *)
Definition recognized : list string :=
  ["left"; "right"; "above"; "below"; "before"; "after"].

Definition is_recognized (side : string) : bool :=
  existsb (String.eqb side) recognized.

Definition is_vertical (side : string) : bool :=
  (side =? "above") || (side =? "below").

(** Mirror images of a corner, used to state what "inverse" means. *)
Definition flipV (y : VerticalConnectionPos) : VerticalConnectionPos :=
  match y with Vtop => Vbottom | Vbottom => Vtop | Vcenter => Vcenter end.

Definition flipH (x : HorizontalConnectionPos) : HorizontalConnectionPos :=
  match x with Hstart => Hend | Hend => Hstart | Hcenter => Hcenter end.

(** What the fallback of a resolved pair has to be: on the axis of the
    requested side the corner is mirrored, and it really is a corner (not
    [center]); on the other axis nothing changes. *)
Definition inverse_on_axis (side : string)
    (origin : WithFallback OriginConnectionPosition)
    (overlay : WithFallback OverlayConnectionPosition) : Prop :=
  if is_vertical side then
    originY (fallback origin) = flipV (originY (main origin))
    /\ originY (main origin) <> Vcenter
    /\ originX (fallback origin) = originX (main origin)
    /\ overlayY (fallback overlay) = flipV (overlayY (main overlay))
    /\ overlayY (main overlay) <> Vcenter
    /\ overlayX (fallback overlay) = overlayX (main overlay)
  else
    originX (fallback origin) = flipH (originX (main origin))
    /\ originX (main origin) <> Hcenter
    /\ originY (fallback origin) = originY (main origin)
    /\ overlayX (fallback overlay) = flipH (overlayX (main overlay))
    /\ overlayX (main overlay) <> Hcenter
    /\ overlayY (fallback overlay) = overlayY (main overlay).

(** The side that names the same physical side when the text direction is
    reversed. *)
Definition mirror (side : string) : string :=
  if side =? "left" then "right"
  else if side =? "right" then "left"
  else side.

End Resolver.

(** ** Numbers *)

(** Strict and non-strict comparison of pixel quantities. *)
Definition Qltb (a b : Q) : bool := negb (Qle_bool b a).
Definition Qleb (a b : Q) : bool := Qle_bool a b.

(** [Math.round]: the nearest integer, halves rounded up. *)
Definition Math_round (q : Q) : Q := inject_Z (Qfloor (q + (1 # 2))%Q).

(** The result of an addition whose left operand may be [undefined]:
    [undefined + 1] is [NaN]. *)
Inductive number : Type :=
| Num (n : Z)
| NaN.

(** [s.match(/(a|b|...)/)] for literal alternatives is a substring test. *)
Fixpoint includes (sub s : string) : bool :=
  String.prefix sub s
  || match s with
     | EmptyString => false
     | String _ rest => includes sub rest
     end.

Definition matches_any (alternatives : list string) (s : string) : bool :=
  existsb (fun sub => includes sub s) alternatives.

(** ** The walkthrough store ([AppWalkthroughStore]) *)

Module Store.

(** [TutorialTooltipStep] *)
Record TutorialTooltipStep : Type := mkTooltipStep {
  title : string;
  exempt : string
}.

(** An entry of [HandHoldersPositions]. *)
Record PrevPosition : Type := mkPrevPosition {
  position : string;
  step : Z
}.

(** The fields of the store.  [_until_emitted] counts the notifications
    sent on [_until$] and [_until_completed] records its completion;
    [scrollEndListening] tells whether the listener installed by
    [_setupScrollStopLsnr] is still attached.  [_prevHandHolderPosition]
    is declared without an initial value, hence [None] at first. *)
Record t : Type := mk {
  _handHolderTooltipsPage : string;
  _handHolderTooltips : option (gmap string TutorialTooltipStep);
  _currentStep : Z;
  _currentGroup : option (gmap Z string);
  _allSteps : number;
  _prevHandHolderPosition : option (gmap string PrevPosition);
  _until_emitted : nat;
  _until_completed : bool;
  scrollEndListening : bool
}.

(** The store right after its constructor has run. *)
Definition initial : t :=
  {| _handHolderTooltipsPage := "HomePage";
     _handHolderTooltips := None;
     _currentStep := 0;
     _currentGroup := None;
     _allSteps := Num 0;
     _prevHandHolderPosition := None;
     _until_emitted := 0;
     _until_completed := false;
     scrollEndListening := true |}.

Definition with_currentStep (n : Z) (s : t) : t :=
  mk (_handHolderTooltipsPage s) (_handHolderTooltips s) n
     (_currentGroup s) (_allSteps s) (_prevHandHolderPosition s)
     (_until_emitted s) (_until_completed s) (scrollEndListening s).

Definition with_prevHandHolderPosition
    (p : option (gmap string PrevPosition)) (s : t) : t :=
  mk (_handHolderTooltipsPage s) (_handHolderTooltips s) (_currentStep s)
     (_currentGroup s) (_allSteps s) p
     (_until_emitted s) (_until_completed s) (scrollEndListening s).

(** [{ ...o }] of an object that may be [undefined]. *)
Definition spread {K V : Type} `{Countable K} (o : option (gmap K V))
  : gmap K V :=
  default ∅ o.

Definition setHandHolderTooltipPage (page : string) (s : t) : t :=
  mk page (_handHolderTooltips s) (_currentStep s)
     (_currentGroup s) (_allSteps s) (_prevHandHolderPosition s)
     (_until_emitted s) (_until_completed s) (scrollEndListening s).

Definition setHandHolderTooltips (tips : gmap string TutorialTooltipStep)
    (s : t) : t :=
  mk (_handHolderTooltipsPage s) (Some tips) (_currentStep s)
     (_currentGroup s) (_allSteps s) (_prevHandHolderPosition s)
     (_until_emitted s) (_until_completed s) (scrollEndListening s).

(** [{ ...this._currentGroup, ...group }]: the keys of [group] win. *)
Definition setCurrentGroup (group : gmap Z string) (s : t) : t :=
  mk (_handHolderTooltipsPage s) (_handHolderTooltips s) (_currentStep s)
     (Some (group ∪ spread (_currentGroup s)))
     (_allSteps s) (_prevHandHolderPosition s)
     (_until_emitted s) (_until_completed s) (scrollEndListening s).

Definition setAllSteps (steps : number) (s : t) : t :=
  mk (_handHolderTooltipsPage s) (_handHolderTooltips s) (_currentStep s)
     (_currentGroup s) steps (_prevHandHolderPosition s)
     (_until_emitted s) (_until_completed s) (scrollEndListening s).

Definition setPrevHandHolderStepPos (pos : string) (step : Z) (key : string)
    (s : t) : t :=
  if (_currentStep s =? step)%Z then
    with_prevHandHolderPosition
      (Some (<[key := mkPrevPosition pos step]>
               (spread (_prevHandHolderPosition s)))) s
  else s.

Definition resetHandHoldersPos (newPos : gmap string PrevPosition) (s : t)
  : t :=
  with_prevHandHolderPosition (Some newPos) s.

Definition incrementStep (s : t) : t :=
  let _curr := _currentStep s in
  let _next := (_curr + 1)%Z in
  with_currentStep _next s.

Definition killTutorial (s : t) : t :=
  mk (_handHolderTooltipsPage s) None 0
     (_currentGroup s) (_allSteps s) (_prevHandHolderPosition s)
     (if _until_completed s then _until_emitted s else S (_until_emitted s))
     (_until_completed s) (scrollEndListening s).

Definition ngOnDestroy (s : t) : t :=
  mk (_handHolderTooltipsPage s) (_handHolderTooltips s) (_currentStep s)
     None (Num 0) (_prevHandHolderPosition s)
     (if _until_completed s then _until_emitted s else S (_until_emitted s))
     true false.

(** The methods through which the rest of the program can act on the
    store; every field that holds state is private. *)
Inductive call : Type :=
| SetHandHolderTooltipPage (page : string)
| SetHandHolderTooltips (tips : gmap string TutorialTooltipStep)
| SetCurrentGroup (group : gmap Z string)
| SetAllSteps (steps : number)
| SetPrevHandHolderStepPos (pos : string) (step : Z) (key : string)
| ResetHandHoldersPos (newPos : gmap string PrevPosition)
| IncrementStep
| KillTutorial
| NgOnDestroy.

Definition perform (c : call) (s : t) : t :=
  match c with
  | SetHandHolderTooltipPage page => setHandHolderTooltipPage page s
  | SetHandHolderTooltips tips => setHandHolderTooltips tips s
  | SetCurrentGroup group => setCurrentGroup group s
  | SetAllSteps steps => setAllSteps steps s
  | SetPrevHandHolderStepPos pos step key =>
      setPrevHandHolderStepPos pos step key s
  | ResetHandHoldersPos newPos => resetHandHoldersPos newPos s
  | IncrementStep => incrementStep s
  | KillTutorial => killTutorial s
  | NgOnDestroy => ngOnDestroy s
  end.

(** The store after a sequence of calls, oldest first. *)
Definition after (calls : list call) (s : t) : t :=
  fold_left (fun s c => perform c s) calls s.

(** The number of calls of [incrementStep] since the last call of
    [killTutorial], or since the beginning. *)
Fixpoint nexts_since_kill (count : Z) (calls : list call) : Z :=
  match calls with
  | [] => count
  | IncrementStep :: rest => nexts_since_kill (count + 1) rest
  | KillTutorial :: rest => nexts_since_kill 0 rest
  | _ :: rest => nexts_since_kill count rest
  end.

End Store.

(** ** The hand holder directive ([HandHolderBaseDirective]) *)

Module HandHolder.

Definition HAND_HOLDER_STEP_MAX_HEIGHT : Q := 532.
Definition HAND_HOLDER_STEP_MAX_WIDTH : Q := 350.

(** The fields of the directive that the step logic uses.  An attribute
    that was never bound leaves its field [undefined]: [None] for
    [_handHolderStep] and [_appearsInGroup], [false] for the two flags
    (they are only ever tested for truthiness). *)
Record t : Type := mk {
  _tipPosition : string;
  _handHolder : string;
  _handHolderStep : option Z;
  _isLastStep : bool;
  _appearsInGroup : option string;
  _skipTipPoint : bool
}.

Definition with_tipPosition (pos : string) (d : t) : t :=
  mk pos (_handHolder d) (_handHolderStep d) (_isLastStep d)
     (_appearsInGroup d) (_skipTipPoint d).

(** Truthiness of a string that may be [undefined]. *)
Definition truthy (s : option string) : bool :=
  match s with
  | None => false
  | Some EmptyString => false
  | Some _ => true
  end.

(** What one invocation reads from the DOM: the viewport rectangle of the
    [ViewportRuler], the bounding client rectangle of the hooked element,
    and the scroll offsets of the [main] container. *)
Record Layout : Type := mkLayout {
  viewportWidth : Q;
  viewportHeight : Q;
  rect_x : Q;
  rect_y : Q;
  rect_width : Q;
  rect_height : Q;
  rect_top : Q;
  rect_left : Q;
  scrollTop : Q;
  scrollLeft : Q
}.

(** The directive, the store it holds a reference to, and the [top]
    arguments of the calls to [this._main.scroll], oldest first. *)
Record World : Type := mkWorld {
  this : t;
  store : Store.t;
  scrolls : list Q
}.

Inductive ScrollOption : Type := fullway | halfway.

(** [getElemRect(elem, scrollableContainer)] as [(top, left, height)]. *)
Definition getElemRect (l : Layout) : Q * Q * Q :=
  let top := (scrollTop l + rect_top l)%Q in
  let left := (scrollLeft l + rect_left l)%Q in
  (Math_round top, Math_round left, rect_height l).

Definition _getTopViewportOffset (l : Layout) : Q :=
  (viewportHeight l * (3 # 10))%Q.

Definition scroll (top : Q) (w : World) : World :=
  mkWorld (this w) (store w) (scrolls w ++ [top]).

(** [_scrollToHookedElement(option = 'fullway', offset = 0)] *)
Definition _scrollToHookedElement (l : Layout) (option : ScrollOption)
    (offset : Q) (w : World) : World :=
  let '(top, _, height) := getElemRect l in
  let _newTop := (top + offset)%Q in
  match option with
  | fullway => scroll (_newTop - _getTopViewportOffset l)%Q w
  | halfway => scroll (_newTop - height / (3 # 2))%Q w
  end.

Definition _scrollVerticallyBy (amount : Q) (w : World) : World :=
  scroll amount w.

Definition _positionIs (pos : string) (w : World) : bool :=
  _tipPosition (this w) =? pos.

Definition _anyPosition (alternatives : list string) (w : World) : bool :=
  matches_any alternatives (_tipPosition (this w)).

(** [_makePosition(pos)].  When [_handHolderStep] is [undefined] the
    comparison [this._currentStep.value === step] inside the store is
    false, so the store is left as it is. *)
Definition _makePosition (pos : string) (w : World) : World :=
  let store' :=
    if negb (truthy (_appearsInGroup (this w))) then
      match _handHolderStep (this w) with
      | Some step =>
          Store.setPrevHandHolderStepPos
            (_tipPosition (this w)) step (_handHolder (this w)) (store w)
      | None => store w
      end
    else store w in
  mkWorld (with_tipPosition pos (this w)) store' (scrolls w).

Definition _isTipFitVertically (viewportHeight elHeight : Q) : bool :=
  Qltb elHeight (viewportHeight - HAND_HOLDER_STEP_MAX_HEIGHT)%Q.

(** [_positionHandHolderStep()] *)
Definition _positionHandHolderStep (l : Layout) (w : World) : World :=
  let _vieportWidth := viewportWidth l in
  let _viewportHeight := viewportHeight l in
  let _halfViewportWidth := (_vieportWidth / 2)%Q in
  let x := rect_x l in
  let y := rect_y l in
  let _hookedElWidth := rect_width l in
  let _hookedElHeight := rect_height l in
  let _deltaWidth := (_vieportWidth - _hookedElWidth)%Q in
  if Qltb _deltaWidth HAND_HOLDER_STEP_MAX_HEIGHT then
    if _positionIs "above" w then
      if Qleb HAND_HOLDER_STEP_MAX_HEIGHT y then
        _scrollToHookedElement l halfway 0 w
      else if Qleb 260 (Qabs y) && Qleb 260 (scrollTop l) then
        if _isTipFitVertically _viewportHeight _hookedElHeight then
          _scrollVerticallyBy (scrollTop l - 100)%Q w
        else _scrollVerticallyBy (scrollTop l - 260)%Q w
      else w
    else if _positionIs "below" w then
      if _isTipFitVertically _viewportHeight _hookedElHeight then
        _scrollToHookedElement l fullway 0 w
      else _scrollVerticallyBy (scrollTop l + y)%Q w
    else if _anyPosition ["left"; "before"; "right"; "after"] w then
      if Qleb HAND_HOLDER_STEP_MAX_HEIGHT y then
        _scrollToHookedElement l halfway 0 (_makePosition "above" w)
      else if Qleb y (-260) && Qleb 260 (scrollTop l) then
        _scrollToHookedElement l fullway (-160) (_makePosition "above" w)
      else w
    else w
  else if _positionIs "above" w then
    if _isTipFitVertically _viewportHeight _hookedElHeight then
      if Qleb HAND_HOLDER_STEP_MAX_HEIGHT y then
        _scrollToHookedElement l fullway 0 w
      else _makePosition "below" w
    else w
  else if Qltb x _halfViewportWidth
          && Qltb x HAND_HOLDER_STEP_MAX_WIDTH
          && _anyPosition ["left"; "before"] w then
    _scrollToHookedElement l fullway 0 (_makePosition "right" w)
  else if Qltb _halfViewportWidth x
          && Qltb x (_vieportWidth - HAND_HOLDER_STEP_MAX_WIDTH)%Q
          && _anyPosition ["right"; "after"] w then
    _scrollToHookedElement l fullway 0 (_makePosition "left" w)
  else
    _scrollToHookedElement l fullway 0 w.

(** [_resetHandHolderPosition()].  [Object.keys(_prevPos)] is enumerated
    together with the values [_prevPos[curr]]; an entry always has its two
    keys, so the test on [Object.keys(_currPosTip)] never returns. *)
Definition _resetHandHolderPosition (w : World) : World :=
  match Store._prevHandHolderPosition (store w) with
  | None => w
  | Some _prevPos =>
      let _posKeys := map_to_list _prevPos in
      if (length _posKeys =? 0)%nat then w
      else
        match _prevPos !! _handHolder (this w) with
        | None => w
        | Some _currPosTip =>
            let this' :=
              if bool_decide
                   (_handHolderStep (this w) = Some (Store.step _currPosTip))
              then with_tipPosition (Store.position _currPosTip) (this w)
              else this w in
            let _newPos :=
              fold_left
                (fun (acc : gmap string Store.PrevPosition) curr =>
                   if fst curr =? _handHolder (this w) then acc
                   else <[fst curr := snd curr]> acc)
                _posKeys ∅ in
            mkWorld this' (Store.resetHandHoldersPos _newPos (store w))
                    (scrolls w)
        end
  end.

(** [this._handHolderStep + 1] *)
Definition plus_one (step : option Z) : number :=
  match step with
  | Some n => Num (n + 1)
  | None => NaN
  end.

(** [_setLastStep()] *)
Definition _setLastStep (w : World) : World :=
  if _isLastStep (this w) then
    mkWorld (this w)
            (Store.setAllSteps (plus_one (_handHolderStep (this w))) (store w))
            (scrolls w)
  else w.

(** [_isStep()] *)
Definition _isStep (d : t) : bool :=
  match _handHolderStep d with
  | Some _ => true
  | None => false
  end.

(** Every field of the store other than the override map survives the
    methods of the directive. *)
Definition same_but_overrides (s s' : Store.t) : Prop :=
  Store.with_prevHandHolderPosition (Store._prevHandHolderPosition s) s' = s.

(** *** Outcomes of the step heuristic *)

Definition tip (w : World) : string := _tipPosition (this w).

Definition opposite (side : string) : option string :=
  if side =? "above" then Some "below"
  else if side =? "below" then Some "above"
  else if side =? "left" then Some "right"
  else if side =? "right" then Some "left"
  else if side =? "before" then Some "after"
  else if side =? "after" then Some "before"
  else None.

(** Outcomes of one invocation that takes [w] to [r]: the side is kept and
    nothing is scrolled; the side becomes the opposite one and nothing is
    scrolled; the side is kept and the container is scrolled once. *)
Definition kept_without_scroll (w r : World) : Prop :=
  tip r = tip w /\ scrolls r = scrolls w.

Definition flipped_without_scroll (w r : World) : Prop :=
  opposite (tip w) = Some (tip r) /\ scrolls r = scrolls w.

Definition scrolled_without_change (w r : World) : Prop :=
  tip r = tip w /\ exists top, scrolls r = (scrolls w ++ [top])%list.

(** The outcome that the code has besides: the side is replaced and the
    container is scrolled once. *)
Definition changed_and_scrolled (w r : World) : Prop :=
  tip r <> tip w /\ exists top, scrolls r = (scrolls w ++ [top])%list.

(** A tip requested on the left of a small element near the left edge of a
    1920 by 1080 viewport, at step 0 of a tour that is at step 0. *)
Definition near_left_edge : Layout :=
  {| viewportWidth := 1920; viewportHeight := 1080;
     rect_x := 100; rect_y := 200; rect_width := 300; rect_height := 50;
     rect_top := 200; rect_left := 100;
     scrollTop := 0; scrollLeft := 0 |}.

Definition hooked_on_the_left : World :=
  {| this := {| _tipPosition := "left"; _handHolder := "learnAngular";
                _handHolderStep := Some 0%Z; _isLastStep := false;
                _appearsInGroup := None; _skipTipPoint := false |};
     store := Store.initial;
     scrolls := [] |}.

(** The same tip after the heuristic has moved it to the right: the store
    holds an override for it. *)
Definition moved_to_the_right : World :=
  {| this := {| _tipPosition := "right"; _handHolder := "learnAngular";
                _handHolderStep := Some 0%Z; _isLastStep := false;
                _appearsInGroup := None; _skipTipPoint := false |};
     store :=
       Store.with_prevHandHolderPosition
         (Some {[ "learnAngular" := Store.mkPrevPosition "left" 0 ]})
         Store.initial;
     scrolls := [] |}.

(** A hook that belongs to a group. *)
Definition hooked_in_group : World :=
  {| this := {| _tipPosition := "left"; _handHolder := "addDependency";
                _handHolderStep := Some 0%Z; _isLastStep := false;
                _appearsInGroup := Some "angularBlog";
                _skipTipPoint := false |};
     store := Store.initial;
     scrolls := [] |}.

(** The hook of the fifth and last step. *)
Definition last_hook : World :=
  {| this := {| _tipPosition := "below"; _handHolder := "addDependency";
                _handHolderStep := Some 4%Z; _isLastStep := true;
                _appearsInGroup := None; _skipTipPoint := false |};
     store := Store.initial;
     scrolls := [] |}.

(** The reaction of [HandHolderHookDirective] to a value [step] of
    [currentStep$] (the subscriber installed by [execute]): nothing for a
    hook outside of groups; otherwise [true] when
    [_addDynamicStylesForGroups] is called and [false] when
    [_resetStylesToDefault] is.  The store starts with [_currentGroup] set
    to [null], and indexing [null] raises a [TypeError]. *)
Definition _isInGroup (step : Z) (w : World) : result (option bool) :=
  if negb (truthy (_appearsInGroup (this w))) then Ok None
  else
    match Store._currentGroup (store w) with
    | None => Throw TypeError
    | Some _currGroup =>
        Ok (Some (bool_decide
                    (_currGroup !! step = _appearsInGroup (this w))))
    end.

End HandHolder.

(** ** The tutorial tip ([HandHolderStepComponent]) *)

Module StepComponent.

(** The callbacks of [props] that reach outside of the directive and the
    store. *)
Inductive callback : Type :=
| DisposeOfTutorialTooltip
| LastStepCleanup.

(** The closures that the component passes to [throttleExecution]. *)
Inductive task : Type :=
| ShowAnimation
| IncrementStep
| EndTour.

(** The component with what it acts on: [_animationState]; [props.isLast];
    the directive that built [props] and the store (the one that the
    component has injected as [_aths]); the callbacks called so far; and
    the timers set and not yet fired, each with its delay in
    milliseconds. *)
Record t : Type := mk {
  _animationState : bool;
  isLast : bool;
  world : HandHolder.World;
  called : list callback;
  timers : list (N * task)
}.

Definition hideAnimation (c : t) : t :=
  mk false (isLast c) (world c) (called c) (timers c).

Definition showAnimation (c : t) : t :=
  mk true (isLast c) (world c) (called c) (timers c).

(** [props.resetPosition()] *)
Definition resetPosition (c : t) : t :=
  mk (_animationState c) (isLast c)
     (HandHolder._resetHandHolderPosition (world c)) (called c) (timers c).

(** [throttleExecution(fn)(time)]: [setTimeout(fn, time)]. *)
Definition throttleExecution (fn : task) (time : N) (c : t) : t :=
  mk (_animationState c) (isLast c) (world c) (called c)
     (timers c ++ [(time, fn)]).

(** [ngAfterViewInit()]; a timeout without a delay has delay 0. *)
Definition ngAfterViewInit (c : t) : t :=
  throttleExecution ShowAnimation 0 c.

(** [onSkip()] *)
Definition onSkip (c : t) : t :=
  throttleExecution EndTour 230 (resetPosition (hideAnimation c)).

(** [onNext()] *)
Definition onNext (c : t) : t :=
  let c := resetPosition c in
  if isLast c then onSkip c
  else
    throttleExecution ShowAnimation 280
      (throttleExecution IncrementStep 230 (hideAnimation c)).

Definition with_store (f : Store.t -> Store.t) (w : HandHolder.World)
  : HandHolder.World :=
  HandHolder.mkWorld (HandHolder.this w) (f (HandHolder.store w))
                     (HandHolder.scrolls w).

(** The closure that [onSkip] hands to [throttleExecution]:
    [disposeOfTutorialTooltip()], [_stepCleanup()], [killTutorial()].
    [killTutorial] first notifies [_until$]; [currentStep$] and
    [handHolderTooltips$], the only ways to the two subjects, are piped
    through [takeUntil(this._until$)], so that their subscribers are gone
    when the two subjects get their new values. *)
Definition endTour (c : t) : t :=
  mk (_animationState c) (isLast c)
     (with_store Store.killTutorial (world c))
     (called c ++ [DisposeOfTutorialTooltip; LastStepCleanup])
     (timers c).

(** The tip of the last step of a tour that is at step 4, right after it
    has been attached. *)
Definition last_tip : t :=
  {| _animationState := true;
     isLast := true;
     world :=
       HandHolder.mkWorld
         (HandHolder.this HandHolder.last_hook)
         (Store.with_currentStep 4 Store.initial)
         [];
     called := [];
     timers := [] |}.

End StepComponent.

(** ** The tour button ([CustomResizeObserver] and [TakeTheTourStore]) *)

Module TourButton.

Record Size : Type := mkSize {
  width : Q;
  height : Q
}.

(** [CustomResizeObserver]: the current value of the behaviour subject
    [_observe], and whether [ngOnDestroy] has completed it. *)
Record ResizeObserver : Type := mkObserver {
  _observe : Size;
  destroyed : bool
}.

(** The operators of one subscription to [toggleTourBtn$] that keep state:
    [withLatestFrom] remembers the last value of [observe$] (none before
    the first one), [distinctUntilChanged] the last value it let through. *)
Record Pipeline : Type := mkPipeline {
  latest : option Size;
  previous : option bool
}.

(** [withLatestFrom(observe$)], [filter(([_, { width }]) => width >= 1200)],
    [map((res) => res[0])], [distinctUntilChanged()], applied to one value
    of [_toggleTourBtn].  The second component is what the subscriber
    receives, if anything. *)
Definition push (toggle : bool) (p : Pipeline) : Pipeline * option bool :=
  match latest p with
  | None => (p, None)
  | Some size =>
      if Qleb 1200 (width size) then
        if bool_decide (previous p = Some toggle) then (p, None)
        else (mkPipeline (latest p) (Some toggle), Some toggle)
      else (p, None)
  end.

(** [TakeTheTourStore] with one subscriber of [toggleTourBtn$]. *)
Record t : Type := mk {
  observer : ResizeObserver;
  _enableTourBtn : gmap string bool;
  _toggleTourBtn : bool;
  pipeline : Pipeline
}.

(** Subscribing: [withLatestFrom] first subscribes to [observe$], which
    replays the current size unless the subject has completed, and then to
    [_toggleTourBtn], which replays its current value. *)
Definition subscribe (o : ResizeObserver) (enable : gmap string bool)
    (toggle : bool) : t * option bool :=
  let p0 := mkPipeline (if destroyed o then None else Some (_observe o)) None in
  let '(p, out) := push toggle p0 in
  (mk o enable toggle p, out).

(** The callback of the [ResizeObserver]: [this._observe.next(size)]. *)
Definition resized (size : Size) (s : t) : t :=
  if destroyed (observer s) then s
  else mk (mkObserver size false) (_enableTourBtn s) (_toggleTourBtn s)
          (mkPipeline (Some size) (previous (pipeline s))).

(** [CustomResizeObserver.ngOnDestroy()] *)
Definition observerDestroyed (s : t) : t :=
  mk (mkObserver (_observe (observer s)) true) (_enableTourBtn s)
     (_toggleTourBtn s) (pipeline s).

(** [_enableTourBtnIfNeeded(published)]; [_alwaysEnabledIn] is
    [/(HomePage)/]. *)
Definition _enableTourBtnIfNeeded (published : bool)
    (enable : gmap string bool) : gmap string bool :=
  map_imap
    (fun curr old =>
       Some (if matches_any ["HomePage"] curr then old else published))
    enable.

(** [customTourBtnToggle(tourPage, enable = false)] *)
Definition customTourBtnToggle (tourPage : string) (enable : bool) (s : t)
  : t :=
  mk (observer s) (<[tourPage := enable]> (_enableTourBtn s))
     (_toggleTourBtn s) (pipeline s).

(** [toggleTourBtn()] *)
Definition toggleTourBtn (s : t) : t * option bool :=
  let enable := _enableTourBtnIfNeeded true (_enableTourBtn s) in
  let toggle := negb (_toggleTourBtn s) in
  let '(p, out) := push toggle (pipeline s) in
  (mk (observer s) enable toggle p, out).

(** [resetTourBtn()] *)
Definition resetTourBtn (s : t) : t * option bool := toggleTourBtn s.

Inductive event : Type :=
| Resized (size : Size)
| ObserverDestroyed
| CustomTourBtnToggle (tourPage : string) (enable : bool)
| ToggleTourBtn
| ResetTourBtn.

Definition step (e : event) (s : t) : t * option bool :=
  match e with
  | Resized size => (resized size s, None)
  | ObserverDestroyed => (observerDestroyed s, None)
  | CustomTourBtnToggle tourPage enable =>
      (customTourBtnToggle tourPage enable s, None)
  | ToggleTourBtn => toggleTourBtn s
  | ResetTourBtn => resetTourBtn s
  end.

(** A value received by the subscriber, with the size that the resize
    observer had emitted last at that moment. *)
Definition received (s : t) (out : option bool) : list (Size * bool) :=
  match out with
  | Some toggle => [(_observe (observer s), toggle)]
  | None => []
  end.

Fixpoint run (events : list event) (s : t) : list (Size * bool) :=
  match events with
  | [] => []
  | e :: rest =>
      let '(s', out) := step e s in
      received s' out ++ run rest s'
  end.

(** Everything a subscriber receives, from its subscription on. *)
Definition emissions (o : ResizeObserver) (enable : gmap string bool)
    (toggle : bool) (events : list event) : list (Size * bool) :=
  let '(s, out) := subscribe o enable toggle in
  received s out ++ run events s.

(** What [withLatestFrom] holds, if anything, is the size that the resize
    observer has emitted last. *)
Definition in_sync (s : t) : Prop :=
  forall size : Size,
    latest (pipeline s) = Some size -> size = _observe (observer s).

(** The viewport was at least 1200 pixels wide when the value was
    received. *)
Definition wide (delivery : Size * bool) : Prop :=
  (1200 <= width (fst delivery))%Q.

(** The values of a list of deliveries. *)
Definition values (deliveries : list (Size * bool)) : list bool :=
  map snd deliveries.

(** No value is the same as the one before it; [previous] is the value
    before the first one, if there is one. *)
Fixpoint alternating_from (previous : option bool) (received : list bool)
  : Prop :=
  match received with
  | [] => True
  | b :: rest => previous <> Some b /\ alternating_from (Some b) rest
  end.

(** The sizes that the resize observer emits are at least 1200 wide. *)
Definition wide_event (e : event) : Prop :=
  match e with
  | Resized size => (1200 <= width size)%Q
  | _ => True
  end.

(** The values that the calls of [toggleTourBtn] and [resetTourBtn] among
    [events] give to [_toggleTourBtn], which holds [current] at first. *)
Fixpoint toggled_values (current : bool) (events : list event) : list bool :=
  match events with
  | [] => []
  | ToggleTourBtn :: rest | ResetTourBtn :: rest =>
      negb current :: toggled_values (negb current) rest
  | _ :: rest => toggled_values current rest
  end.

(** The viewport is wide and the subscriber has received the current value
    of [_toggleTourBtn]. *)
Definition up_to_date (s : t) : Prop :=
  (exists size, latest (pipeline s) = Some size /\ (1200 <= width size)%Q)
  /\ previous (pipeline s) = Some (_toggleTourBtn s).

(** [disableEntirelyTourBtn]: [map(({ width }) => width >= 1200)] and
    [distinctUntilChanged()] applied to one size of [observe$].
    [previous] is the last value that [distinctUntilChanged] let through;
    the result is its new value and what the subscriber receives. *)
Definition push_size (size : Size) (previous : option bool)
  : option bool * option bool :=
  let enabled := Qleb 1200 (width size) in
  if bool_decide (previous = Some enabled) then (previous, None)
  else (Some enabled, Some enabled).

(** One subscription to [disableEntirelyTourBtn]: the resize observer and
    the state of [distinctUntilChanged]. *)
Definition subscribe_disable (o : ResizeObserver)
  : (ResizeObserver * option bool) * list bool :=
  if destroyed o then ((o, None), [])
  else
    let '(previous, out) := push_size (_observe o) None in
    ((o, previous), option_list out).

Definition step_disable (e : event) (s : ResizeObserver * option bool)
  : (ResizeObserver * option bool) * list bool :=
  let '(o, previous) := s in
  match e with
  | Resized size =>
      if destroyed o then (s, [])
      else
        let '(previous', out) := push_size size previous in
        ((mkObserver size false, previous'), option_list out)
  | ObserverDestroyed => ((mkObserver (_observe o) true, previous), [])
  | _ => (s, [])
  end.

Fixpoint run_disable (events : list event) (s : ResizeObserver * option bool)
  : (ResizeObserver * option bool) * list bool :=
  match events with
  | [] => (s, [])
  | e :: rest =>
      let '(s', out) := step_disable e s in
      let '(s'', out') := run_disable rest s' in
      (s'', (out ++ out')%list)
  end.

(** Everything a subscriber of [disableEntirelyTourBtn] receives, with the
    resize observer and the state of [distinctUntilChanged] at the end. *)
Definition disableEntirelyTourBtn (o : ResizeObserver) (events : list event)
  : (ResizeObserver * option bool) * list bool :=
  let '(s, out) := subscribe_disable o in
  let '(s', out') := run_disable events s in
  (s', (out ++ out')%list).

End TourButton.

(** ** The scroll-end detector ([onScrollStop]) *)

Module ScrollStop.

(** Time in milliseconds. *)
Definition time : Type := N.

(** The closure of [onScrollStop] together with the timers of the host.
    [pending] lists the timers that are set and have neither fired nor been
    cleared, oldest first, each with the time at which it is due;
    [emitted] lists the times at which [_observe] has emitted. *)
Record state : Type := mk {
  throttleBy : N;
  _timeoutId : option positive;
  pending : list (positive * time);
  next_handle : positive;
  now : time;
  listening : bool;
  completed : bool;
  emitted : list time
}.

(** [onScrollStop(el, throttleBy = 300)] *)
Definition onScrollStop (throttleBy : option N) : state :=
  mk (default 300%N throttleBy) None [] 1%positive 0%N true false [].

(** [clearTimeout(handle)] *)
Definition clearTimeout (handle : positive)
    (timers : list (positive * time)) : list (positive * time) :=
  List.filter (fun timer => negb (fst timer =? handle)%positive) timers.

(** The listener: a handle is a positive integer and hence truthy. *)
Definition on_scroll (s : state) : state :=
  let cleared :=
    match _timeoutId s with
    | Some handle => clearTimeout handle (pending s)
    | None => pending s
    end in
  mk (throttleBy s) (Some (next_handle s))
     (cleared ++ [(next_handle s, (now s + throttleBy s)%N)])
     (Pos.succ (next_handle s)) (now s) (listening s) (completed s)
     (emitted s).

(** The callback of a timer, [() => _observe.next(null)], run at time [at_]. *)
Definition fire (at_ : time) (emitted : list time) (completed : bool)
  : list time :=
  if completed then emitted else emitted ++ [at_].

(** The clock moves on to [t]: every timer that is due by then fires. *)
Definition advance (t : time) (s : state) : state :=
  let due := List.filter (fun timer => (snd timer <=? t)%N) (pending s) in
  let rest := List.filter (fun timer => negb (snd timer <=? t)%N) (pending s) in
  mk (throttleBy s) (_timeoutId s) rest (next_handle s) (N.max (now s) t)
     (listening s) (completed s)
     (fold_left (fun acc timer => fire (snd timer) acc (completed s))
                due (emitted s)).

(** A scroll event dispatched on the element at time [t]. *)
Definition scroll_at (t : time) (s : state) : state :=
  let s' := advance t s in
  if listening s' then on_scroll s' else s'.

(** [cleanup()] *)
Definition cleanup (s : state) : state :=
  mk (throttleBy s) (_timeoutId s)
     match _timeoutId s with
     | Some handle => clearTimeout handle (pending s)
     | None => pending s
     end
     (next_handle s) (now s) false true (emitted s).

(** The clock runs on until no timer is left. *)
Definition settle (s : state) : state :=
  mk (throttleBy s) (_timeoutId s) [] (next_handle s) (now s)
     (listening s) (completed s)
     (fold_left (fun acc timer => fire (snd timer) acc (completed s))
                (pending s) (emitted s)).

(** The emission times for scroll events dispatched at [scrolls]. *)
Definition emissions (throttleBy : option N) (scrolls : list time)
  : list time :=
  emitted (settle (fold_left (fun s t => scroll_at t s) scrolls
                             (onScrollStop throttleBy))).


(** The events are dispatched in the order of the list. *)
Fixpoint nondecreasing (scrolls : list time) : Prop :=
  match scrolls with
  | [] => True
  | t :: rest =>
      match rest with
      | [] => True
      | t' :: _ => (t <= t')%N
      end /\ nondecreasing rest
  end.

(** The time at which the one pending timer is due, if there is one. *)
Definition armed (s : state) : option time :=
  match pending s with
  | [timer] => Some (snd timer)
  | _ => None
  end.

(** What debouncing by [delay] means, in the words of the specification:
    an emission that is due at [armed] happens unless a scroll event comes
    first, and each scroll event makes an emission due [delay] later. *)
Fixpoint debounced (delay : N) (armed : option time) (scrolls : list time)
  : list time :=
  match scrolls with
  | [] =>
      match armed with
      | Some due => [due]
      | None => []
      end
  | t :: rest =>
      match armed with
      | Some due => if (due <=? t)%N then [due] else []
      | None => []
      end ++ debounced delay (Some (t + delay)%N) rest
  end.

(** The states that the listener can be in while it is attached: at most
    one timer is pending, and it is the one whose handle [_timeoutId]
    holds. *)
Definition attached (s : state) : Prop :=
  listening s = true
  /\ completed s = false
  /\ (pending s = []
      \/ exists handle due,
           pending s = [(handle, due)] /\ _timeoutId s = Some handle).


End ScrollStop.

(** * Properties *)

(** ** The position resolver *)

Section ResolverFacts.
Import Resolver.

Lemma is_recognized_cases (side : string) :
  is_recognized side = true ->
  side = "left" \/ side = "right" \/ side = "above"
  \/ side = "below" \/ side = "before" \/ side = "after".
Proof.
  unfold is_recognized, recognized. cbn [existsb].
  rewrite !orb_true_iff, !String.eqb_eq. intuition discriminate.
Qed.

Lemma not_recognized_cases (side : string) :
  is_recognized side = false ->
  (side =? "left") = false /\ (side =? "right") = false
  /\ (side =? "above") = false /\ (side =? "below") = false
  /\ (side =? "before") = false /\ (side =? "after") = false.
Proof.
  unfold is_recognized, recognized. cbn [existsb].
  rewrite !orb_false_iff. tauto.
Qed.

(** Outside of a production build both halves of the resolver throw the
    error of [throwInvalidTutorialTipPosition] for an unknown side. *)
Lemma unrecognized_development (dir : option Direction) (side : string) :
  is_recognized side = false ->
  _getOrigin false (mkDirective dir side) = Throw InvalidTutorialTipPosition
  /\ _getOverlayPosition false (mkDirective dir side)
     = Throw InvalidTutorialTipPosition
  /\ _updatePosition false (mkDirective dir side)
     = Throw InvalidTutorialTipPosition.
Proof.
  intros H. apply not_recognized_cases in H.
  destruct H as (Hl & Hr & Ha & Hb & Hbe & Haf).
  unfold _updatePosition, _getOrigin, _getOverlayPosition,
    originPosition, overlayPosition.
  cbn [_tipPosition]. rewrite Hl, Hr, Ha, Hb, Hbe, Haf. auto.
Qed.

(** In a production build no branch assigns the local variable, and the
    property access that follows raises a [TypeError]. *)
Lemma unrecognized_production (dir : option Direction) (side : string) :
  is_recognized side = false ->
  _getOrigin true (mkDirective dir side) = Throw TypeError
  /\ _getOverlayPosition true (mkDirective dir side) = Throw TypeError
  /\ _updatePosition true (mkDirective dir side) = Throw TypeError.
Proof.
  intros H. apply not_recognized_cases in H.
  destruct H as (Hl & Hr & Ha & Hb & Hbe & Haf).
  unfold _updatePosition, _getOrigin, _getOverlayPosition,
    originPosition, overlayPosition.
  cbn [_tipPosition]. rewrite Hl, Hr, Ha, Hb, Hbe, Haf. auto.
Qed.

(** C1.  For each of the six recognized sides and each text direction
    (left-to-right, right-to-left, or no [Directionality] at all), in any
    build, [_getOrigin] and [_getOverlayPosition] return a main corner and
    a fallback corner, [_updatePosition] hands the main pair followed by
    the fallback pair to the positioning strategy, and the fallback is the
    inverse of the main pair on the relevant axis: top/bottom mirrored and
    the horizontal component unchanged for 'above'/'below', start/end
    mirrored and the vertical component unchanged for the four others. *)
Theorem resolver_fallback_is_inverse
    (production : bool) (dir : option Direction) (side : string) :
  is_recognized side = true ->
  exists origin overlay,
    _getOrigin production (mkDirective dir side) = Ok origin
    /\ _getOverlayPosition production (mkDirective dir side) = Ok overlay
    /\ _updatePosition production (mkDirective dir side)
       = Ok [ spread (main origin) (main overlay);
              spread (fallback origin) (fallback overlay) ]
    /\ inverse_on_axis side origin overlay.
Proof.
  intros H. apply is_recognized_cases in H.
  destruct H as [-> | [-> | [-> | [-> | [-> | ->]]]]];
    destruct dir as [[|]|];
    (eexists; eexists; split; [reflexivity |];
     split; [reflexivity |]; split; [reflexivity |];
     cbv; repeat split; discriminate).
Qed.

Lemma resolver_fallback_is_inverse_witness :
  exists origin overlay,
    _getOrigin true (mkDirective (Some rtl) "before") = Ok origin
    /\ _getOverlayPosition true (mkDirective (Some rtl) "before") = Ok overlay
    /\ _updatePosition true (mkDirective (Some rtl) "before")
       = Ok [ spread (main origin) (main overlay);
              spread (fallback origin) (fallback overlay) ]
    /\ inverse_on_axis "before" origin overlay.
Proof.
  apply (resolver_fallback_is_inverse true (Some rtl) "before").
  reflexivity.
Defined.

(** C2.  The side 'top' is not one of the six literals.  Outside of a
    production build the resolver throws the invalid-position error for
    it; in a production build the call does not complete either: reading
    [originX] (or [overlayX]) of the unassigned variable raises a
    [TypeError]. *)
Theorem invalid_side_in_production_raises :
  is_recognized "top" = false
  /\ _getOrigin false (mkDirective (Some ltr) "top")
     = Throw InvalidTutorialTipPosition
  /\ _getOverlayPosition false (mkDirective (Some ltr) "top")
     = Throw InvalidTutorialTipPosition
  /\ _getOrigin true (mkDirective (Some ltr) "top") = Throw TypeError
  /\ _getOverlayPosition true (mkDirective (Some ltr) "top")
     = Throw TypeError
  /\ _updatePosition true (mkDirective (Some ltr) "top") = Throw TypeError.
Proof. repeat split; reflexivity. Qed.

End ResolverFacts.

(** ** The walkthrough store *)

Section StoreFacts.
Import Store.

Lemma setPrevHandHolderStepPos_currentStep pos step key s :
  _currentStep (setPrevHandHolderStepPos pos step key s) = _currentStep s.
Proof.
  unfold setPrevHandHolderStepPos. destruct (_ =? _)%Z; reflexivity.
Qed.

(** C10.  [setPrevHandHolderStepPos(pos, step, key)] returns the store as
    it was when [step] is not the current step.  When it is, the entry of
    [key] becomes [{ position: pos, step }], the entry of every other key
    is what it was, and every field other than the override map is what it
    was (putting the old map back gives the old store). *)
Theorem setPrevHandHolderStepPos_frame
    (pos : string) (step : Z) (key : string) (s : t) :
  (step <> _currentStep s -> setPrevHandHolderStepPos pos step key s = s)
  /\ (step = _currentStep s ->
      let s' := setPrevHandHolderStepPos pos step key s in
      spread (_prevHandHolderPosition s') !! key
        = Some (mkPrevPosition pos step)
      /\ (forall other : string,
            other <> key ->
            spread (_prevHandHolderPosition s') !! other
            = spread (_prevHandHolderPosition s) !! other)
      /\ with_prevHandHolderPosition (_prevHandHolderPosition s) s' = s).
Proof.
  unfold setPrevHandHolderStepPos. split.
  - intros Hne. destruct (Z.eqb_spec (_currentStep s) step); congruence.
  - intros ->. rewrite Z.eqb_refl. cbn. split; [|split].
    + apply lookup_insert_eq.
    + intros other Hne. by apply lookup_insert_ne.
    + by destruct s.
Qed.

Lemma setPrevHandHolderStepPos_frame_witness :
  setPrevHandHolderStepPos "left" 4 "angularBlog" initial = initial
  /\ (let s' := setPrevHandHolderStepPos "left" 0 "angularBlog" initial in
      spread (_prevHandHolderPosition s') !! "angularBlog"
        = Some (mkPrevPosition "left" 0)
      /\ (forall other : string,
            other <> "angularBlog" ->
            spread (_prevHandHolderPosition s') !! other
            = spread (_prevHandHolderPosition initial) !! other)
      /\ with_prevHandHolderPosition (_prevHandHolderPosition initial) s'
         = initial).
Proof.
  split.
  - apply (proj1 (setPrevHandHolderStepPos_frame "left" 4 "angularBlog"
                    initial)).
    cbn. lia.
  - apply (proj2 (setPrevHandHolderStepPos_frame "left" 0 "angularBlog"
                    initial)).
    reflexivity.
Defined.

End StoreFacts.

(** ** The hand holder directive *)

Section HandHolderFacts.
Import HandHolder.

Lemma Qltb_lt (a b : Q) : Qltb a b = true <-> (a < b)%Q.
Proof.
  unfold Qltb. rewrite negb_true_iff, <- not_true_iff_false, Qle_bool_iff.
  split; [apply Qnot_le_lt | apply Qlt_not_le].
Qed.

Lemma Qltb_ge (a b : Q) : Qltb a b = false -> (b <= a)%Q.
Proof.
  unfold Qltb. rewrite negb_false_iff. apply Qle_bool_iff.
Qed.

(** C4.  [_isTipFitVertically(viewportHeight, elHeight)] holds exactly when
    the height of the hooked element is strictly less than the height of
    the viewport minus 532, the value of [HAND_HOLDER_STEP_MAX_HEIGHT]. *)
Theorem isTipFitVertically_iff (viewportHeight elHeight : Q) :
  HAND_HOLDER_STEP_MAX_HEIGHT = 532%Q
  /\ (_isTipFitVertically viewportHeight elHeight = true
      <-> (elHeight < viewportHeight - 532)%Q).
Proof.
  split; [reflexivity |].
  unfold _isTipFitVertically, HAND_HOLDER_STEP_MAX_HEIGHT. apply Qltb_lt.
Qed.

(** *** What the directive does to the store *)

Lemma scrollToHookedElement_store l o offset w :
  store (_scrollToHookedElement l o offset w) = store w.
Proof. by destruct o. Qed.

Lemma same_but_overrides_refl s : same_but_overrides s s.
Proof. by destruct s. Qed.

Lemma makePosition_same_but_overrides pos w :
  same_but_overrides (store w) (store (_makePosition pos w)).
Proof.
  unfold _makePosition, same_but_overrides. cbn.
  destruct (negb _); [| by destruct (store w)].
  destruct (_handHolderStep _); [| by destruct (store w)].
  unfold Store.setPrevHandHolderStepPos.
  destruct (_ =? _)%Z; by destruct (store w).
Qed.

Lemma positionHandHolderStep_store l w :
  store (_positionHandHolderStep l w) = store w
  \/ exists pos, store (_positionHandHolderStep l w)
                 = store (_makePosition pos w).
Proof.
  unfold _positionHandHolderStep.
  repeat match goal with
         | |- context [if ?b then _ else _] => destruct b
         end;
    rewrite ?scrollToHookedElement_store; eauto.
Qed.

Lemma positionHandHolderStep_same_but_overrides l w :
  same_but_overrides (store w) (store (_positionHandHolderStep l w)).
Proof.
  destruct (positionHandHolderStep_store l w) as [-> | [pos ->]].
  - apply same_but_overrides_refl.
  - apply makePosition_same_but_overrides.
Qed.

Lemma resetHandHolderPosition_same_but_overrides w :
  same_but_overrides (store w) (store (_resetHandHolderPosition w)).
Proof.
  unfold _resetHandHolderPosition.
  destruct (Store._prevHandHolderPosition (store w)) as [m|] eqn:Hm;
    [| apply same_but_overrides_refl].
  destruct (_ =? _)%nat; [apply same_but_overrides_refl |].
  destruct (m !! _); [| apply same_but_overrides_refl].
  unfold same_but_overrides. cbn. clear Hm. by destruct (store w).
Qed.

Lemma same_but_overrides_currentStep s s' :
  same_but_overrides s s' -> Store._currentStep s' = Store._currentStep s.
Proof. intros <-. reflexivity. Qed.

Lemma same_but_overrides_allSteps s s' :
  same_but_overrides s s' -> Store._allSteps s' = Store._allSteps s.
Proof. intros <-. reflexivity. Qed.

Lemma scrollToHookedElement_scroll l o offset w :
  exists top, _scrollToHookedElement l o offset w = scroll top w.
Proof. destruct o; eexists; reflexivity. Qed.

Lemma app_singleton_neq {A : Type} (l : list A) (a : A) :
  (l ++ [a])%list <> l.
Proof.
  intros H. apply (f_equal length) in H. rewrite length_app in H.
  cbn in H. lia.
Qed.

Lemma not_scrolled_and_unscrolled (w r : World) :
  scrolls r = scrolls w ->
  (exists top, scrolls r = (scrolls w ++ [top])%list) ->
  False.
Proof.
  intros H [top Htop]. rewrite H in Htop. symmetry in Htop.
  exact (app_singleton_neq _ _ Htop).
Qed.

Lemma positionIs_true pos w : _positionIs pos w = true -> tip w = pos.
Proof. unfold _positionIs, tip. apply String.eqb_eq. Qed.

(** A position that [_makePosition] is called with differs from the one it
    replaces: the regular expression that guards the call does not match
    the new position. *)
Lemma anyPosition_neq alternatives pos w :
  _anyPosition alternatives w = true ->
  matches_any alternatives pos = false ->
  pos <> tip w.
Proof. unfold _anyPosition, tip. intros Hw Hpos ->. congruence. Qed.

Ltac name_scroll :=
  match goal with
  | |- context [_scrollToHookedElement ?l ?o ?offset ?w] =>
      let top := fresh "top" in
      destruct (scrollToHookedElement_scroll l o offset w) as [top ->]
  end.

Ltac split_conditions :=
  repeat match goal with
         | H : (_ && _) = true |- _ =>
             apply andb_true_iff in H; destruct H
         end.

(** C3, as the code has it.  One invocation of [_positionHandHolderStep]
    scrolls the container at most once and has exactly one of four
    outcomes: the side is kept and nothing is scrolled; the side goes from
    'above' to 'below' and nothing is scrolled; the side is kept and the
    container is scrolled; or the side is replaced and the container is
    scrolled in the same invocation.  In the last case the new side is
    'above' (for a side that matches left, before, right or after, next to
    an element that leaves less than 532 pixels of the width of the
    viewport), 'right' (for a side that matches left or before, next to an
    element that leaves at least 532 pixels and whose x is less than half
    the width of the viewport and less than 350) or 'left' (for a side that
    matches right or after, next to an element that leaves at least 532
    pixels and whose x is more than half the width of the viewport and
    less than that width minus 350). *)
Theorem positionHandHolderStep_outcome (l : Layout) (w : World) :
  let r := _positionHandHolderStep l w in
  let A := kept_without_scroll w r in
  let B := tip w = "above" /\ tip r = "below"
           /\ flipped_without_scroll w r in
  let C := scrolled_without_change w r in
  let D := changed_and_scrolled w r
           /\ ((tip r = "above"
                /\ _anyPosition ["left"; "before"; "right"; "after"] w = true
                /\ (viewportWidth l - rect_width l < 532)%Q)
               \/ (tip r = "right"
                   /\ _anyPosition ["left"; "before"] w = true
                   /\ (532 <= viewportWidth l - rect_width l)%Q
                   /\ (rect_x l < viewportWidth l / 2)%Q
                   /\ (rect_x l < 350)%Q)
               \/ (tip r = "left"
                   /\ _anyPosition ["right"; "after"] w = true
                   /\ (532 <= viewportWidth l - rect_width l)%Q
                   /\ (viewportWidth l / 2 < rect_x l)%Q
                   /\ (rect_x l < viewportWidth l - 350)%Q)) in
  (A \/ B \/ C \/ D)
  /\ ~ (A /\ B) /\ ~ (A /\ C) /\ ~ (A /\ D)
  /\ ~ (B /\ C) /\ ~ (B /\ D) /\ ~ (C /\ D).
Proof.
  cbv zeta. split.
  - unfold _positionHandHolderStep.
    repeat match goal with
           | |- context [if ?b then _ else _] => destruct b eqn:?
           end;
      split_conditions;
      try name_scroll;
      unfold kept_without_scroll, flipped_without_scroll,
        scrolled_without_change, changed_and_scrolled, _scrollVerticallyBy,
        tip;
      cbn [scroll _makePosition this scrolls with_tipPosition _tipPosition];
      repeat match goal with
             | H : _positionIs _ _ = true |- _ =>
                 apply positionIs_true in H; unfold tip in H
             end.
    all: try (left; split; reflexivity).
    all: try (right; right; left; split; [reflexivity | eauto]).
    all: try (right; left; repeat split; try assumption;
              match goal with
              | H : _ = "above" |- _ => rewrite H; reflexivity
              end).
    all: right; right; right; split;
      [ split; [| eauto];
        match goal with
        | H : _anyPosition ?alts _ = true |- ?pos <> _ =>
            apply (anyPosition_neq alts pos w H); reflexivity
        end
      | repeat match goal with
               | H : Qltb _ _ = true |- _ => apply Qltb_lt in H
               | H : Qltb _ _ = false |- _ => apply Qltb_ge in H
               end;
        first [ left; repeat split; assumption
              | right; left; repeat split; assumption
              | right; right; repeat split; assumption ] ].
  - unfold kept_without_scroll, flipped_without_scroll,
      scrolled_without_change, changed_and_scrolled.
    repeat split; intros H.
    + destruct H as [[H1 _] (Ha & Hb & _)]. congruence.
    + destruct H as [[_ H1] [_ H2]]. eauto using not_scrolled_and_unscrolled.
    + destruct H as [[H1 _] [[H2 _] _]]. congruence.
    + destruct H as [(_ & _ & _ & H1) [_ H2]].
      eauto using not_scrolled_and_unscrolled.
    + destruct H as [(_ & _ & _ & H1) [[_ H2] _]].
      eauto using not_scrolled_and_unscrolled.
    + destruct H as [[H1 _] [[H2 _] _]]. congruence.
Qed.

(** C3, as the specification has it, fails: for a tip requested on the
    left of an element near the left edge, one invocation replaces 'left'
    by 'right' and also scrolls the container (to 200 - 0.3 * 1080 = -124),
    which is none of the three outcomes. *)
Lemma positionHandHolderStep_changes_side_and_scrolls :
  let w := hooked_on_the_left in
  let r := _positionHandHolderStep near_left_edge w in
  tip w = "left"
  /\ tip r = "right"
  /\ (exists top, scrolls r = [top] /\ (top == -124)%Q)
  /\ ~ (kept_without_scroll w r
        \/ flipped_without_scroll w r
        \/ scrolled_without_change w r).
Proof.
  cbv zeta.
  assert (Htip : tip (_positionHandHolderStep near_left_edge
                        hooked_on_the_left) = "right")
    by (vm_compute; reflexivity).
  assert (Hscrolls : exists top,
             scrolls (_positionHandHolderStep near_left_edge
                        hooked_on_the_left) = [top] /\ (top == -124)%Q)
    by (eexists; split; [vm_compute; reflexivity | reflexivity]).
  repeat split; try assumption.
  destruct Hscrolls as (top & Hscrolls & _).
  unfold kept_without_scroll, flipped_without_scroll,
    scrolled_without_change.
  rewrite Htip, Hscrolls.
  intros [[H _] | [[_ H] | [H _]]]; discriminate H.
Qed.

(** *** Overrides *)

(** The [reduce] of [_resetHandHolderPosition] rebuilds the dictionary
    without the key of the directive. *)
Lemma reduce_lookup (h : string)
    (entries : list (string * Store.PrevPosition)) :
  NoDup entries.*1 ->
  forall (acc : gmap string Store.PrevPosition) (k : string),
    let result :=
      fold_left
        (fun (acc : gmap string Store.PrevPosition) curr =>
           if fst curr =? h then acc else <[fst curr := snd curr]> acc)
        entries acc in
    (k = h -> result !! k = acc !! k)
    /\ (k <> h -> forall v, (k, v) ∈ entries -> result !! k = Some v)
    /\ (k <> h -> k ∉ entries.*1 -> result !! k = acc !! k).
Proof.
  induction entries as [| [k0 v0] entries IH]; intros Hnd acc k; cbn.
  - repeat split; auto. intros _ v Hin. by apply elem_of_nil in Hin.
  - apply NoDup_cons in Hnd as [Hk0 Hnd].
    specialize (IH Hnd). cbn in IH.
    destruct (String.eqb_spec k0 h) as [-> | Hk0h].
    + destruct (IH acc k) as (IH1 & IH2 & IH3).
      repeat split; auto.
      * intros Hk v Hin. apply elem_of_cons in Hin as [Heq | Hin]; auto.
        congruence.
      * intros Hk Hnotin. apply not_elem_of_cons in Hnotin as [_ Hnotin].
        auto.
    + destruct (IH (<[k0 := v0]> acc) k) as (IH1 & IH2 & IH3).
      repeat split.
      * intros ->. rewrite IH1 by reflexivity. by apply lookup_insert_ne.
      * intros Hk v Hin. apply elem_of_cons in Hin as [Heq | Hin]; auto.
        injection Heq as -> ->.
        rewrite IH3 by assumption. apply lookup_insert_eq.
      * intros Hk Hnotin. apply not_elem_of_cons in Hnotin as [Hne Hnotin].
        rewrite IH3 by assumption. by apply lookup_insert_ne.
Qed.

Lemma reduce_is_delete (h : string) (m : gmap string Store.PrevPosition) :
  fold_left
    (fun (acc : gmap string Store.PrevPosition) curr =>
       if fst curr =? h then acc else <[fst curr := snd curr]> acc)
    (map_to_list m) ∅
  = delete h m.
Proof.
  apply map_eq. intros k.
  destruct (reduce_lookup h (map_to_list m) (NoDup_fst_map_to_list m) ∅ k)
    as (H1 & H2 & H3).
  destruct (decide (k = h)) as [-> | Hne].
  - rewrite H1 by reflexivity. by rewrite lookup_delete_eq.
  - rewrite lookup_delete_ne by congruence.
    destruct (m !! k) as [v |] eqn:Hk.
    + apply H2; [assumption |]. by apply elem_of_map_to_list.
    + rewrite H3; [reflexivity | assumption |].
      intros Hin. apply list_elem_of_fmap in Hin as ([k' v] & -> & Hin).
      apply elem_of_map_to_list in Hin. cbn in Hk. congruence.
Qed.

Lemma makePosition_in_group pos w :
  truthy (_appearsInGroup (this w)) = true ->
  store (_makePosition pos w) = store w.
Proof. unfold _makePosition. intros ->. reflexivity. Qed.

(** C5.  An override is recorded only for a hand holder that is not part
    of a group: when [_appearsInGroup] is set, neither [_makePosition] nor
    a whole run of the step heuristic changes the store.  And an override
    that [_resetHandHolderPosition] finds for its hand holder is removed
    from the override map by that same call (the map that is written back
    is the old one without that key), whether or not its step is that of
    the directive; when it is, the position of the override becomes the
    position of the tip. *)
Theorem overrides_outside_groups_and_cleared_once_used (w : World) :
  (truthy (_appearsInGroup (this w)) = true ->
   forall (pos : string) (l : Layout),
     store (_makePosition pos w) = store w
     /\ store (_positionHandHolderStep l w) = store w)
  /\ (forall (m : gmap string Store.PrevPosition)
             (entry : Store.PrevPosition),
        Store._prevHandHolderPosition (store w) = Some m ->
        m !! _handHolder (this w) = Some entry ->
        let r := _resetHandHolderPosition w in
        Store._prevHandHolderPosition (store r)
          = Some (delete (_handHolder (this w)) m)
        /\ Store.spread (Store._prevHandHolderPosition (store r))
             !! _handHolder (this w) = None
        /\ (_handHolderStep (this w) = Some (Store.step entry) ->
            tip r = Store.position entry)
        /\ (_handHolderStep (this w) <> Some (Store.step entry) ->
            tip r = tip w)).
Proof.
  split.
  - intros Hgroup pos l. split; [by apply makePosition_in_group |].
    destruct (positionHandHolderStep_store l w) as [H | [pos' H]];
      rewrite H; [reflexivity | by apply makePosition_in_group].
  - intros m entry Hm Hentry. cbv zeta.
    unfold _resetHandHolderPosition. rewrite Hm.
    destruct (map_to_list m) as [| first others] eqn:Hlist.
    { apply map_to_list_empty_iff in Hlist. subst m.
      by rewrite lookup_empty in Hentry. }
    rewrite <- Hlist. rewrite Hentry.
    replace (length (map_to_list m) =? 0)%nat with false
      by (rewrite Hlist; reflexivity).
    rewrite reduce_is_delete. unfold tip. cbn.
    split; [reflexivity |]. split; [apply lookup_delete_eq |].
    split; intros Hstep.
    + by rewrite bool_decide_eq_true_2.
    + by rewrite bool_decide_eq_false_2.
Qed.

Lemma overrides_outside_groups_and_cleared_once_used_witness :
  (store (_makePosition "right" hooked_in_group) = store hooked_in_group
   /\ store (_positionHandHolderStep near_left_edge hooked_in_group)
      = store hooked_in_group)
  /\ (let r := _resetHandHolderPosition moved_to_the_right in
      Store._prevHandHolderPosition (store r)
        = Some (delete "learnAngular"
                  {[ "learnAngular" := Store.mkPrevPosition "left" 0 ]})
      /\ Store.spread (Store._prevHandHolderPosition (store r))
           !! "learnAngular" = None
      /\ tip r = "left").
Proof.
  split.
  - apply (proj1 (overrides_outside_groups_and_cleared_once_used
                    hooked_in_group)).
    reflexivity.
  - destruct (proj2 (overrides_outside_groups_and_cleared_once_used
                       moved_to_the_right)
                {[ "learnAngular" := Store.mkPrevPosition "left" 0 ]}
                (Store.mkPrevPosition "left" 0)
                eq_refl
                ltac:(vm_compute; reflexivity))
      as (Hmap & Hgone & Hused & _).
    split; [exact Hmap |]. split; [exact Hgone |].
    apply Hused. reflexivity.
Defined.

(** C6.  [incrementStep] takes the current step from [n] to [n + 1].  Of
    the methods of the store, only [incrementStep] and [killTutorial],
    which resets the step to 0, change the current step; the methods of
    the directive, which reach the store through those of the store, leave
    it as it is. *)
Theorem currentStep_moves_by_increment_or_kill (w : World) :
  let s := store w in
  Store._currentStep (Store.incrementStep s) = (Store._currentStep s + 1)%Z
  /\ Store._currentStep (Store.killTutorial s) = 0%Z
  /\ (forall c : Store.call,
        Store._currentStep (Store.perform c s)
        = match c with
          | Store.IncrementStep => (Store._currentStep s + 1)%Z
          | Store.KillTutorial => 0%Z
          | _ => Store._currentStep s
          end)
  /\ (forall (pos : string) (l : Layout),
        Store._currentStep (store (_makePosition pos w))
          = Store._currentStep s
        /\ Store._currentStep (store (_positionHandHolderStep l w))
           = Store._currentStep s
        /\ Store._currentStep (store (_resetHandHolderPosition w))
           = Store._currentStep s
        /\ Store._currentStep (store (_setLastStep w))
           = Store._currentStep s).
Proof.
  cbv zeta. split; [reflexivity |]. split; [reflexivity |]. split.
  - intros []; try reflexivity.
    apply setPrevHandHolderStepPos_currentStep.
  - intros pos l. repeat split.
    + apply same_but_overrides_currentStep,
        makePosition_same_but_overrides.
    + apply same_but_overrides_currentStep,
        positionHandHolderStep_same_but_overrides.
    + apply same_but_overrides_currentStep,
        resetHandHolderPosition_same_but_overrides.
    + unfold _setLastStep. by destruct (_isLastStep _).
Qed.

(** C7.  When a directive whose last-step flag is set registers its step
    [n] through [_setLastStep], the total of the store becomes [n + 1] and
    nothing else changes; a directive whose flag is not set leaves the
    store, and so its total, as it is.  No other method of a directive
    changes the total. *)
Theorem allSteps_is_last_ordinal_plus_one (w : World) :
  (forall n : Z,
     _isLastStep (this w) = true ->
     _handHolderStep (this w) = Some n ->
     _setLastStep w
     = mkWorld (this w) (Store.setAllSteps (Num (n + 1)) (store w))
               (scrolls w)
     /\ Store._allSteps (store (_setLastStep w)) = Num (n + 1))
  /\ (_isLastStep (this w) = false -> _setLastStep w = w)
  /\ (forall (pos : string) (l : Layout),
        Store._allSteps (store (_makePosition pos w))
          = Store._allSteps (store w)
        /\ Store._allSteps (store (_positionHandHolderStep l w))
           = Store._allSteps (store w)
        /\ Store._allSteps (store (_resetHandHolderPosition w))
           = Store._allSteps (store w)).
Proof.
  unfold _setLastStep. split; [| split].
  - intros n Hlast Hstep. rewrite Hlast, Hstep. split; reflexivity.
  - intros ->. reflexivity.
  - intros pos l. repeat split.
    + apply same_but_overrides_allSteps, makePosition_same_but_overrides.
    + apply same_but_overrides_allSteps,
        positionHandHolderStep_same_but_overrides.
    + apply same_but_overrides_allSteps,
        resetHandHolderPosition_same_but_overrides.
Qed.

Lemma allSteps_is_last_ordinal_plus_one_witness :
  Store._allSteps (store (_setLastStep last_hook)) = Num 5
  /\ _setLastStep hooked_on_the_left = hooked_on_the_left.
Proof.
  split.
  - apply (proj1 (allSteps_is_last_ordinal_plus_one last_hook) 4%Z);
      reflexivity.
  - apply (proj1 (proj2 (allSteps_is_last_ordinal_plus_one
                           hooked_on_the_left))).
    reflexivity.
Defined.

End HandHolderFacts.

(** ** The tour button *)

Section TourButtonFacts.
Import TourButton.

Lemma push_spec (toggle : bool) (p : Pipeline) :
  latest (fst (push toggle p)) = latest p
  /\ forall b : bool,
       snd (push toggle p) = Some b ->
       b = toggle
       /\ exists size, latest p = Some size /\ (1200 <= width size)%Q.
Proof.
  unfold push. destruct (latest p) as [size |] eqn:Hlatest.
  - destruct (Qleb 1200 (width size)) eqn:Hwide; cbn.
    + apply Qle_bool_iff in Hwide.
      destruct (bool_decide _); cbn; (split; [congruence |]);
        intros b [= <-]; eauto.
    + split; [congruence | discriminate].
  - cbn. split; [congruence | discriminate].
Qed.

Lemma push_received (toggle : bool) (s s' : t) (out : option bool) :
  in_sync s ->
  observer s' = observer s ->
  snd (push toggle (pipeline s)) = out ->
  Forall wide (received s' out).
Proof.
  intros Hsync Hobs <-. unfold received.
  destruct (snd (push toggle (pipeline s))) as [b |] eqn:Hout;
    [| constructor].
  apply (proj2 (push_spec toggle (pipeline s))) in Hout
    as (_ & size & Hlatest & Hwide).
  constructor; [| constructor].
  unfold wide. cbn. rewrite Hobs, <- (Hsync size Hlatest). exact Hwide.
Qed.

Lemma toggleTourBtn_spec (s : t) :
  in_sync s ->
  in_sync (fst (toggleTourBtn s))
  /\ Forall wide (received (fst (toggleTourBtn s)) (snd (toggleTourBtn s))).
Proof.
  intros Hsync. unfold toggleTourBtn.
  pose proof (push_spec (negb (_toggleTourBtn s)) (pipeline s)) as [Hl _].
  destruct (push (negb (_toggleTourBtn s)) (pipeline s)) as [p out]
    eqn:Hpush.
  cbn in *. split.
  - intros size. cbn. rewrite Hl. apply Hsync.
  - apply (push_received (negb (_toggleTourBtn s)) s);
      [assumption | reflexivity |].
    by rewrite Hpush.
Qed.

Lemma step_spec (e : event) (s : t) :
  in_sync s ->
  in_sync (fst (step e s))
  /\ Forall wide (received (fst (step e s)) (snd (step e s))).
Proof.
  intros Hsync. destruct e; cbn [step fst snd received];
    try (split; [| constructor]).
  - unfold resized. destruct (destroyed (observer s)); [assumption |].
    intros size'. cbn. congruence.
  - exact Hsync.
  - exact Hsync.
  - by apply toggleTourBtn_spec.
  - by apply toggleTourBtn_spec.
Qed.

Lemma run_wide (events : list event) :
  forall s : t, in_sync s -> Forall wide (run events s).
Proof.
  induction events as [| e events IH]; intros s Hsync; cbn [run].
  - constructor.
  - destruct (step_spec e s Hsync) as [Hsync' Hrecv].
    destruct (step e s) as [s' out]. cbn in *.
    apply Forall_app. split; [assumption | by apply IH].
Qed.

(** C8.  Whatever the resize observer, the buttons and the toggle are
    when a subscriber subscribes to [toggleTourBtn$], and whatever happens
    afterwards (sizes emitted by the resize observer, its destruction,
    calls of [toggleTourBtn], [resetTourBtn] and [customTourBtnToggle]),
    each value that the subscriber receives is received at a moment when
    the width that the resize observer has emitted last is at least
    1200. *)
Theorem toggleTourBtn_emits_only_when_wide
    (o : ResizeObserver) (enable : gmap string bool) (toggle : bool)
    (events : list event) :
  Forall (fun delivery => (1200 <= width (fst delivery))%Q)
         (emissions o enable toggle events).
Proof.
  unfold emissions, subscribe.
  set (p0 := mkPipeline (if destroyed o then None else Some (_observe o))
                        None).
  pose proof (push_spec toggle p0) as [Hl _].
  assert (Hsync0 : in_sync (mk o enable toggle p0)).
  { intros size. cbn. destruct (destroyed o); congruence. }
  destruct (push toggle p0) as [p out] eqn:Hpush. cbn in Hl.
  apply Forall_app. split.
  - apply (push_received toggle (mk o enable toggle p0));
      [assumption | reflexivity |].
    cbn. by rewrite Hpush.
  - apply run_wide. intros size. cbn. rewrite Hl. apply Hsync0.
Qed.

End TourButtonFacts.

(** ** The scroll-end detector *)

Section ScrollStopFacts.
Import ScrollStop.

(** A scroll event at [t] lets a timer that was due by then fire, clears
    the timer that is pending otherwise, and leaves exactly one timer,
    due [throttleBy] after [t]. *)
Lemma scroll_at_spec (t : time) (s : state) :
  attached s ->
  (now s <= t)%N ->
  let s' := scroll_at t s in
  attached s'
  /\ now s' = t
  /\ throttleBy s' = throttleBy s
  /\ (exists handle,
        pending s' = [(handle, (t + throttleBy s)%N)]
        /\ _timeoutId s' = Some handle)
  /\ emitted s'
     = (emitted s
        ++ match armed s with
           | Some due => if (due <=? t)%N then [due] else []
           | None => []
           end)%list.
Proof.
  intros (Hlistening & Hcompleted & Hpending) Hnow. cbv zeta.
  unfold scroll_at, advance, on_scroll, attached, armed.
  cbn [listening completed pending now throttleBy _timeoutId emitted].
  rewrite Hlistening, Hcompleted.
  cbn [listening completed pending now throttleBy _timeoutId emitted].
  rewrite (N.max_r _ _ Hnow).
  destruct Hpending as [-> | (handle & due & -> & ->)].
  - cbn. rewrite app_nil_r.
    destruct (_timeoutId s); cbn; repeat split; eauto.
  - cbn. destruct (due <=? t)%N; cbn.
    + repeat split; eauto.
    + rewrite Pos.eqb_refl. cbn. rewrite app_nil_r. repeat split; eauto.
Qed.

Lemma settle_spec (s : state) :
  attached s ->
  emitted (settle s)
  = (emitted s ++ debounced (throttleBy s) (armed s) [])%list.
Proof.
  intros (_ & Hcompleted & Hpending). unfold settle, armed. cbn.
  rewrite Hcompleted.
  destruct Hpending as [-> | (handle & due & -> & _)]; cbn.
  - by rewrite app_nil_r.
  - reflexivity.
Qed.



(** The listener refines [debounced]. *)
Lemma run_debounced (scrolls : list time) :
  forall s : state,
    attached s ->
    nondecreasing (now s :: scrolls) ->
    emitted (settle (fold_left (fun s t => scroll_at t s) scrolls s))
    = (emitted s ++ debounced (throttleBy s) (armed s) scrolls)%list.
Proof.
  induction scrolls as [| t scrolls IH]; intros s Hattached Hsorted.
  - by apply settle_spec.
  - destruct Hsorted as [Hnow Hsorted].
    destruct (scroll_at_spec t s Hattached Hnow)
      as (Hattached' & Hnow' & Hdelay & (handle & Hpending & _) & Hemitted).
    assert (Harmed : armed (scroll_at t s) = Some (t + throttleBy s)%N)
      by (unfold armed; rewrite Hpending; reflexivity).
    cbn [fold_left debounced].
    rewrite IH; [| assumption | by rewrite Hnow'].
    rewrite Hemitted, Hdelay, Harmed, <- app_assoc. reflexivity.
Qed.

Lemma emissions_debounced (throttleBy : option N) (scrolls : list time) :
  nondecreasing scrolls ->
  emissions throttleBy scrolls
  = debounced (default 300%N throttleBy) None scrolls.
Proof.
  intros Hsorted. unfold emissions. rewrite run_debounced.
  - reflexivity.
  - repeat split. by left.
  - split; [| assumption]. destruct scrolls; [exact I | cbn; lia].
Qed.


Lemma last_cons (scrolls : list time) :
  forall t d : time, List.last (t :: scrolls) d = List.last scrolls t.
Proof.
  induction scrolls as [| t' scrolls IH]; intros t d; [reflexivity |].
  change (List.last (t :: t' :: scrolls) d)
    with (List.last (t' :: scrolls) d).
  by rewrite !IH.
Qed.





End ScrollStopFacts.

(** * Further properties *)

(** ** The position resolver *)

Section ResolverMore.
Import Resolver.

(** X1.  [_invertPosition] is an involution: inverting the inverted corner
    gives the corner back, whatever the side of the directive is. *)
Theorem invertPosition_involutive
    (this : Directive) (x : HorizontalConnectionPos)
    (y : VerticalConnectionPos) :
  _invertPosition this (fst (_invertPosition this x y))
                  (snd (_invertPosition this x y))
  = (x, y).
Proof.
  unfold _invertPosition.
  destruct ((_tipPosition this =? "above") || (_tipPosition this =? "below"));
    destruct x, y; reflexivity.
Qed.

Lemma opposite_cases (side side' : string) :
  HandHolder.opposite side = Some side' ->
  (side = "above" /\ side' = "below") \/ (side = "below" /\ side' = "above")
  \/ (side = "left" /\ side' = "right") \/ (side = "right" /\ side' = "left")
  \/ (side = "before" /\ side' = "after")
  \/ (side = "after" /\ side' = "before").
Proof.
  unfold HandHolder.opposite.
  repeat match goal with
         | |- context [if ?a =? ?b then _ else _] =>
             destruct (String.eqb_spec a b)
         end;
    intros [= <-]; tauto.
Qed.

(** X2.  The fallback pair of a side is the main pair of the opposite side,
    and the other way round: the two positions that [_updatePosition] hands
    over for 'above' are those for 'below' in reverse order, and likewise
    for 'left'/'right' and 'before'/'after', in every text direction. *)
Theorem fallback_is_main_of_opposite
    (production : bool) (dir : option Direction) (side side' : string) :
  HandHolder.opposite side = Some side' ->
  exists first second : ConnectedPosition,
    _updatePosition production (mkDirective dir side) = Ok [first; second]
    /\ _updatePosition production (mkDirective dir side')
       = Ok [second; first].
Proof.
  intros H. apply opposite_cases in H.
  destruct H
    as [[-> ->] | [[-> ->] | [[-> ->] | [[-> ->] | [[-> ->] | [-> ->]]]]]];
    destruct dir as [[|] |]; eexists; eexists; split; reflexivity.
Qed.

Lemma fallback_is_main_of_opposite_witness :
  exists first second : ConnectedPosition,
    _updatePosition false (mkDirective (Some rtl) "left") = Ok [first; second]
    /\ _updatePosition false (mkDirective (Some rtl) "right")
       = Ok [second; first].
Proof.
  apply (fallback_is_main_of_opposite false (Some rtl) "left" "right").
  reflexivity.
Defined.

(** X3.  Text direction.  A directive without [Directionality] resolves
    like a left-to-right one; a right-to-left directive resolves every side
    like a left-to-right directive resolves the mirrored side ('left' and
    'right' exchanged, everything else as it is, unknown sides included);
    and in a left-to-right directive 'before' is 'left' and 'after' is
    'right'. *)
Theorem direction_mirrors_left_and_right (production : bool) (side : string) :
  _updatePosition production (mkDirective None side)
  = _updatePosition production (mkDirective (Some ltr) side)
  /\ _updatePosition production (mkDirective (Some rtl) side)
     = _updatePosition production (mkDirective (Some ltr) (mirror side))
  /\ _updatePosition production (mkDirective (Some ltr) "before")
     = _updatePosition production (mkDirective (Some ltr) "left")
  /\ _updatePosition production (mkDirective (Some ltr) "after")
     = _updatePosition production (mkDirective (Some ltr) "right").
Proof.
  split; [reflexivity |]. split; [| split; reflexivity].
  unfold mirror.
  destruct (String.eqb_spec side "left") as [-> | Hleft]; [reflexivity |].
  destruct (String.eqb_spec side "right") as [-> | Hright]; [reflexivity |].
  apply String.eqb_neq in Hleft, Hright.
  unfold _updatePosition, _getOrigin, _getOverlayPosition, originPosition,
    overlayPosition, _invertPosition.
  cbn [_tipPosition]. rewrite Hleft, Hright. reflexivity.
Qed.

(** X4.  [_updatePosition] succeeds exactly for the six recognized sides,
    in either build; when it succeeds it hands over two positions, the same
    in both builds. *)
Theorem updatePosition_succeeds_iff_recognized
    (production : bool) (dir : option Direction) (side : string) :
  ((exists positions,
       _updatePosition production (mkDirective dir side) = Ok positions)
   <-> is_recognized side = true)
  /\ (forall positions,
        _updatePosition production (mkDirective dir side) = Ok positions ->
        length positions = 2%nat
        /\ _updatePosition (negb production) (mkDirective dir side)
           = Ok positions).
Proof.
  destruct (is_recognized side) eqn:Hside.
  - apply is_recognized_cases in Hside.
    destruct Hside as [-> | [-> | [-> | [-> | [-> | ->]]]]];
      destruct dir as [[|] |], production;
      (split; [split; [reflexivity | eexists; reflexivity] |]);
      intros positions [= <-]; split; reflexivity.
  - destruct production.
    + destruct (unrecognized_production dir side Hside) as (_ & _ & ->).
      split; [split; [intros [positions H] |]; discriminate | discriminate].
    + destruct (unrecognized_development dir side Hside) as (_ & _ & ->).
      split; [split; [intros [positions H] |]; discriminate | discriminate].
Qed.

End ResolverMore.

(** ** The walkthrough store *)

Section StoreMore.
Import Store.

(** X5.  [setCurrentGroup] merges: in the new dictionary a key of the
    argument has the value of the argument and every other key keeps its
    value, and two calls in a row amount to one call with the later
    argument laid over the earlier one. *)
Theorem setCurrentGroup_merges (g1 g2 : gmap Z string) (s : t) :
  (forall k : Z,
     spread (_currentGroup (setCurrentGroup g1 s)) !! k
     = match g1 !! k with
       | Some v => Some v
       | None => spread (_currentGroup s) !! k
       end)
  /\ setCurrentGroup g2 (setCurrentGroup g1 s) = setCurrentGroup (g2 ∪ g1) s.
Proof.
  split.
  - intros k. cbn. rewrite lookup_union.
    destruct (g1 !! k), (spread (_currentGroup s) !! k); reflexivity.
  - unfold setCurrentGroup. cbn. by rewrite (assoc_L (∪)).
Qed.

Lemma after_currentStep (calls : list call) :
  forall s : t,
    _currentStep (after calls s) = nexts_since_kill (_currentStep s) calls.
Proof.
  induction calls as [| c calls IH]; intros s; [reflexivity |].
  unfold after in *. cbn [fold_left]. rewrite IH.
  destruct c; try reflexivity.
  cbn [perform nexts_since_kill].
  by rewrite setPrevHandHolderStepPos_currentStep.
Qed.

Lemma nexts_since_kill_nonneg (calls : list call) :
  forall count : Z, (0 <= count)%Z -> (0 <= nexts_since_kill count calls)%Z.
Proof.
  induction calls as [| c calls IH]; intros count Hcount; [assumption |].
  destruct c; cbn [nexts_since_kill]; apply IH; lia.
Qed.

(** X6.  Whatever methods of the store are called and in whichever order,
    starting from the store as constructed, the current step is the number
    of calls of [incrementStep] since the last call of [killTutorial] (or
    since the beginning); in particular it is never negative. *)
Theorem currentStep_counts_nexts (calls : list call) :
  _currentStep (after calls initial) = nexts_since_kill 0 calls
  /\ (0 <= _currentStep (after calls initial))%Z.
Proof.
  rewrite after_currentStep. split; [reflexivity |].
  by apply nexts_since_kill_nonneg.
Qed.

End StoreMore.

(** ** The hand holder directive *)

Section HandHolderMore.
Import HandHolder.

Ltac case_conditions :=
  repeat match goal with
         | |- context [if ?b then _ else _] => destruct b eqn:?
         end;
  repeat match goal with
         | H : (_ && _) = true |- _ =>
             apply andb_true_iff in H; destruct H
         end.

(** What one invocation of the heuristic amounts to: at most one call of
    [_makePosition], with a recognized side that differs from the current
    one, followed by at most one call of [this._main.scroll]. *)
Lemma positionHandHolderStep_shape (l : Layout) (w : World) :
  exists w' : World,
    (w' = w
     \/ exists pos : string,
          w' = _makePosition pos w
          /\ pos <> tip w
          /\ Resolver.is_recognized pos = true)
    /\ (_positionHandHolderStep l w = w'
        \/ exists top : Q, _positionHandHolderStep l w = scroll top w').
Proof.
  unfold _positionHandHolderStep. case_conditions;
    repeat match goal with
           | |- context [_scrollToHookedElement ?l ?o ?offset ?w0] =>
               let top := fresh "top" in
               destruct (scrollToHookedElement_scroll l o offset w0)
                 as [top ->]
           end;
    unfold _scrollVerticallyBy;
    match goal with
    | |- exists w', _ /\ (scroll ?top ?w0 = w' \/ _) =>
        exists w0; split; [| right; exists top; reflexivity]
    | |- exists w', _ /\ (?w0 = w' \/ _) =>
        exists w0; split; [| left; reflexivity]
    end;
    try (left; reflexivity);
    right; eexists; (split; [reflexivity |]); (split; [| reflexivity]).
  all: try match goal with
           | H : _anyPosition ?alts _ = true |- ?pos <> _ =>
               apply (anyPosition_neq alts pos w H); reflexivity
           end.
  match goal with
  | H : _positionIs "above" w = true |- _ =>
      apply positionIs_true in H; rewrite H; discriminate
  end.
Qed.

Lemma resetHandHolderPosition_scroll (top : Q) (w : World) :
  _resetHandHolderPosition (scroll top w)
  = scroll top (_resetHandHolderPosition w).
Proof.
  unfold _resetHandHolderPosition, scroll. cbn.
  destruct (Store._prevHandHolderPosition (store w)) as [m |];
    [| reflexivity].
  destruct (length (map_to_list m) =? 0)%nat; [reflexivity |].
  destruct (m !! _handHolder (this w)); reflexivity.
Qed.

(** [_resetHandHolderPosition] when the store holds an override for the
    hand holder. *)
Lemma resetHandHolderPosition_found
    (w : World) (m : gmap string Store.PrevPosition)
    (entry : Store.PrevPosition) :
  Store._prevHandHolderPosition (store w) = Some m ->
  m !! _handHolder (this w) = Some entry ->
  _resetHandHolderPosition w
  = mkWorld
      (if bool_decide (_handHolderStep (this w) = Some (Store.step entry))
       then with_tipPosition (Store.position entry) (this w)
       else this w)
      (Store.resetHandHoldersPos (delete (_handHolder (this w)) m) (store w))
      (scrolls w).
Proof.
  intros Hm Hentry. unfold _resetHandHolderPosition. rewrite Hm.
  destruct (map_to_list m) as [| first others] eqn:Hlist.
  { apply map_to_list_empty_iff in Hlist. subst m.
    by rewrite lookup_empty in Hentry. }
  rewrite <- Hlist, Hentry.
  replace (length (map_to_list m) =? 0)%nat with false
    by (rewrite Hlist; reflexivity).
  by rewrite reduce_is_delete.
Qed.

(** [_resetHandHolderPosition] when it does not. *)
Lemma resetHandHolderPosition_missing (w : World) :
  Store.spread (Store._prevHandHolderPosition (store w))
    !! _handHolder (this w) = None ->
  _resetHandHolderPosition w = w.
Proof.
  unfold _resetHandHolderPosition, Store.spread.
  destruct (Store._prevHandHolderPosition (store w)) as [m |];
    [| reflexivity].
  cbn. intros ->. by destruct (length (map_to_list m) =? 0)%nat.
Qed.

(** X7.  [_resetHandHolderPosition] leaves the directive and the store as
    they are exactly when the store holds no override for the hand holder
    of the directive (the override map is [undefined] or empty, or lacks
    the key). *)
Theorem resetHandHolderPosition_noop_iff (w : World) :
  _resetHandHolderPosition w = w
  <-> Store.spread (Store._prevHandHolderPosition (store w))
        !! _handHolder (this w) = None.
Proof.
  split; [| apply resetHandHolderPosition_missing].
  intros Hsame.
  destruct (Store._prevHandHolderPosition (store w)) as [m |] eqn:Hm;
    [| reflexivity].
  cbn. destruct (m !! _handHolder (this w)) as [entry |] eqn:Hentry;
    [| reflexivity].
  rewrite (resetHandHolderPosition_found w m entry Hm Hentry) in Hsame.
  apply (f_equal (fun w => Store._prevHandHolderPosition (store w))) in Hsame.
  cbn in Hsame. rewrite Hm in Hsame. injection Hsame as Hsame.
  apply (f_equal (fun m => m !! _handHolder (this w))) in Hsame.
  rewrite lookup_delete_eq, Hentry in Hsame. discriminate.
Qed.

Lemma resetHandHolderPosition_clears (w : World) :
  Store.spread
    (Store._prevHandHolderPosition (store (_resetHandHolderPosition w)))
    !! _handHolder (this w) = None.
Proof.
  destruct (Store.spread (Store._prevHandHolderPosition (store w))
              !! _handHolder (this w)) as [entry |] eqn:Hentry.
  - destruct (Store._prevHandHolderPosition (store w)) as [m |] eqn:Hm;
      [| discriminate].
    rewrite (resetHandHolderPosition_found w m entry Hm Hentry). cbn.
    apply lookup_delete_eq.
  - by rewrite (resetHandHolderPosition_missing w Hentry).
Qed.

Lemma resetHandHolderPosition_twice (w : World) :
  _resetHandHolderPosition (_resetHandHolderPosition w)
  = _resetHandHolderPosition w.
Proof.
  destruct (Store.spread (Store._prevHandHolderPosition (store w))
              !! _handHolder (this w)) as [entry |] eqn:Hentry.
  - destruct (Store._prevHandHolderPosition (store w)) as [m |] eqn:Hm;
      [| discriminate].
    cbn in Hentry.
    rewrite (resetHandHolderPosition_found w m entry Hm Hentry).
    apply resetHandHolderPosition_missing. cbn.
    destruct (bool_decide _); cbn; apply lookup_delete_eq.
  - rewrite (resetHandHolderPosition_missing w Hentry).
    by apply resetHandHolderPosition_missing.
Qed.

(** X8.  Whatever the store held before, after
    [_resetHandHolderPosition] it holds no override for the hand holder of
    the directive, and the call is idempotent: a second call in a row (as
    made by [onNext] followed by [onSkip] on the last step) changes
    nothing. *)
Theorem resetHandHolderPosition_idempotent (w : World) :
  Store.spread
    (Store._prevHandHolderPosition (store (_resetHandHolderPosition w)))
    !! _handHolder (this w) = None
  /\ _resetHandHolderPosition (_resetHandHolderPosition w)
     = _resetHandHolderPosition w.
Proof.
  split; [apply resetHandHolderPosition_clears |
          apply resetHandHolderPosition_twice].
Qed.

(** Undoing [_makePosition]. *)
Lemma reset_after_makePosition (pos : string) (w : World) :
  truthy (_appearsInGroup (this w)) = false ->
  _handHolderStep (this w) = Some (Store._currentStep (store w)) ->
  let r := _resetHandHolderPosition (_makePosition pos w) in
  this r = this w
  /\ scrolls r = scrolls w
  /\ Store._prevHandHolderPosition (store r)
     = Some (delete (_handHolder (this w))
               (Store.spread (Store._prevHandHolderPosition (store w))))
  /\ same_but_overrides (store w) (store r).
Proof.
  intros Hgroup Hstep. cbv zeta.
  set (key := _handHolder (this w)).
  set (entry := Store.mkPrevPosition (_tipPosition (this w))
                  (Store._currentStep (store w))).
  set (m := <[key := entry]>
              (Store.spread (Store._prevHandHolderPosition (store w)))).
  assert (Hmade : _makePosition pos w
                  = mkWorld (with_tipPosition pos (this w))
                      (Store.with_prevHandHolderPosition (Some m) (store w))
                      (scrolls w)).
  { unfold _makePosition, Store.setPrevHandHolderStepPos.
    rewrite Hgroup, Hstep, Z.eqb_refl. reflexivity. }
  rewrite Hmade.
  rewrite (resetHandHolderPosition_found _ m entry);
    [| reflexivity | apply lookup_insert_eq].
  cbn. rewrite Hstep, bool_decide_eq_true_2 by reflexivity.
  repeat split.
  - by destruct (this w).
  - unfold m. by rewrite delete_insert_eq.
  - unfold same_but_overrides. cbn. by destruct (store w).
Qed.

(** X9.  Round trip.  For a directive that is not part of a group and whose
    step is the current step of the store, [_makePosition] followed by
    [_resetHandHolderPosition] gives the directive back as it was (the old
    position included), and leaves no override for its hand holder in the
    store; the overrides of the other hand holders and the other fields of
    the store are as before. *)
Theorem makePosition_then_reset_restores (pos : string) (w : World) :
  truthy (_appearsInGroup (this w)) = false ->
  _handHolderStep (this w) = Some (Store._currentStep (store w)) ->
  let r := _resetHandHolderPosition (_makePosition pos w) in
  this r = this w
  /\ Store.spread (Store._prevHandHolderPosition (store r))
       !! _handHolder (this w) = None
  /\ (forall other : string,
        other <> _handHolder (this w) ->
        Store.spread (Store._prevHandHolderPosition (store r)) !! other
        = Store.spread (Store._prevHandHolderPosition (store w)) !! other)
  /\ same_but_overrides (store w) (store r).
Proof.
  intros Hgroup Hstep.
  destruct (reset_after_makePosition pos w Hgroup Hstep)
    as (Hthis & _ & Hmap & Hrest).
  cbv zeta. rewrite Hmap. cbn. repeat split; try assumption.
  - apply lookup_delete_eq.
  - intros other Hother. apply lookup_delete_ne. congruence.
Qed.

Lemma makePosition_then_reset_restores_witness :
  let r :=
    _resetHandHolderPosition (_makePosition "right" hooked_on_the_left) in
  this r = this hooked_on_the_left
  /\ Store.spread (Store._prevHandHolderPosition (store r))
       !! "learnAngular" = None
  /\ (forall other : string,
        other <> "learnAngular" ->
        Store.spread (Store._prevHandHolderPosition (store r)) !! other
        = Store.spread (Store._prevHandHolderPosition
                          (store hooked_on_the_left)) !! other)
  /\ same_but_overrides (store hooked_on_the_left) (store r).
Proof.
  apply (makePosition_then_reset_restores "right" hooked_on_the_left);
    reflexivity.
Defined.

Lemma resetHandHolderPosition_scrolls (w : World) :
  scrolls (_resetHandHolderPosition w) = scrolls w.
Proof.
  unfold _resetHandHolderPosition.
  destruct (Store._prevHandHolderPosition (store w)) as [m |];
    [| reflexivity].
  destruct (length (map_to_list m) =? 0)%nat; [reflexivity |].
  destruct (m !! _handHolder (this w)); reflexivity.
Qed.

(** X10.  Round trip through the heuristic.  For a directive that is not
    part of a group, whose step is the current step of the store and for
    which the store holds no override yet, [_resetHandHolderPosition] after
    [_positionHandHolderStep] gives back the directive as it was before the
    heuristic ran, requested side included, and the overrides and the other
    fields of the store are as before; the scroll requests remain. *)
Theorem positionHandHolderStep_then_reset_restores (l : Layout) (w : World) :
  truthy (_appearsInGroup (this w)) = false ->
  _handHolderStep (this w) = Some (Store._currentStep (store w)) ->
  Store.spread (Store._prevHandHolderPosition (store w))
    !! _handHolder (this w) = None ->
  let r := _resetHandHolderPosition (_positionHandHolderStep l w) in
  this r = this w
  /\ Store.spread (Store._prevHandHolderPosition (store r))
     = Store.spread (Store._prevHandHolderPosition (store w))
  /\ same_but_overrides (store w) (store r)
  /\ scrolls r = scrolls (_positionHandHolderStep l w).
Proof.
  intros Hgroup Hstep Hfresh. cbv zeta.
  split; [| split; [| split; [| apply resetHandHolderPosition_scrolls]]];
    destruct (positionHandHolderStep_shape l w)
      as (w' & [-> | (pos & -> & _ & _)] & [-> | [top ->]]);
    rewrite ?resetHandHolderPosition_scroll; cbn [scroll this store];
    rewrite ?(resetHandHolderPosition_missing w Hfresh);
    try reflexivity; try apply same_but_overrides_refl;
    destruct (reset_after_makePosition pos w Hgroup Hstep)
      as (Hthis & _ & Hmap & Hrest);
    try assumption;
    rewrite Hmap; cbn; by apply delete_id.
Qed.

Lemma positionHandHolderStep_then_reset_restores_witness :
  let r := _resetHandHolderPosition
             (_positionHandHolderStep near_left_edge hooked_on_the_left) in
  this r = this hooked_on_the_left
  /\ Store.spread (Store._prevHandHolderPosition (store r))
     = Store.spread (Store._prevHandHolderPosition (store hooked_on_the_left))
  /\ same_but_overrides (store hooked_on_the_left) (store r)
  /\ scrolls r
     = scrolls (_positionHandHolderStep near_left_edge hooked_on_the_left).
Proof.
  apply (positionHandHolderStep_then_reset_restores near_left_edge
           hooked_on_the_left);
    reflexivity.
Defined.

Lemma recognized_resolves
    (production : bool) (dir : option Resolver.Direction) (side : string) :
  Resolver.is_recognized side = true ->
  exists positions,
    Resolver._updatePosition production (Resolver.mkDirective dir side)
    = Ok positions.
Proof.
  intros H. apply is_recognized_cases in H.
  destruct H as [-> | [-> | [-> | [-> | [-> | ->]]]]];
    destruct dir as [[|] |]; eexists; reflexivity.
Qed.

(** X11.  The heuristic keeps the side recognized: when the requested side
    is one of the six literals, so is the side after
    [_positionHandHolderStep] (the sides it puts in place are 'above',
    'below', 'left' and 'right'), and the position resolver succeeds for
    it in every text direction and either build. *)
Theorem positionHandHolderStep_keeps_side_recognized
    (l : Layout) (w : World) (production : bool)
    (dir : option Resolver.Direction) :
  Resolver.is_recognized (tip w) = true ->
  let r := _positionHandHolderStep l w in
  Resolver.is_recognized (tip r) = true
  /\ exists positions,
       Resolver._updatePosition production (Resolver.mkDirective dir (tip r))
       = Ok positions.
Proof.
  intros Hside. cbv zeta.
  assert (Hr : Resolver.is_recognized (tip (_positionHandHolderStep l w))
               = true).
  { destruct (positionHandHolderStep_shape l w)
      as (w' & [-> | (pos & -> & _ & Hpos)] & [-> | [top ->]]);
      assumption. }
  split; [assumption | by apply recognized_resolves].
Qed.

Lemma positionHandHolderStep_keeps_side_recognized_witness :
  let r := _positionHandHolderStep near_left_edge hooked_on_the_left in
  Resolver.is_recognized (tip r) = true
  /\ exists positions,
       Resolver._updatePosition true
         (Resolver.mkDirective (Some Resolver.rtl) (tip r))
       = Ok positions.
Proof.
  apply (positionHandHolderStep_keeps_side_recognized near_left_edge
           hooked_on_the_left true (Some Resolver.rtl)).
  reflexivity.
Defined.

Lemma positionHandHolderStep_below_shape (l : Layout) (w : World) :
  tip w = "below" ->
  exists top : Q, _positionHandHolderStep l w = scroll top w.
Proof.
  unfold tip. intros Htip.
  assert (Habove : _positionIs "above" w = false)
    by (unfold _positionIs; rewrite Htip; reflexivity).
  assert (Hbelow : _positionIs "below" w = true)
    by (unfold _positionIs; rewrite Htip; reflexivity).
  assert (Hleft : _anyPosition ["left"; "before"] w = false)
    by (unfold _anyPosition; rewrite Htip; reflexivity).
  assert (Hright : _anyPosition ["right"; "after"] w = false)
    by (unfold _anyPosition; rewrite Htip; reflexivity).
  unfold _positionHandHolderStep.
  rewrite Habove, Hbelow, Hleft, Hright, !andb_false_r.
  unfold _scrollVerticallyBy.
  case_conditions; try apply scrollToHookedElement_scroll;
    eexists; reflexivity.
Qed.

(** X12.  A tip requested 'below' is never moved: whatever the layout, the
    heuristic issues exactly one scroll request and leaves the directive
    and the store as they are. *)
Theorem positionHandHolderStep_below_scrolls_once (l : Layout) (w : World) :
  tip w = "below" ->
  let r := _positionHandHolderStep l w in
  this r = this w
  /\ store r = store w
  /\ exists top : Q, scrolls r = (scrolls w ++ [top])%list.
Proof.
  intros Htip. cbv zeta.
  destruct (positionHandHolderStep_below_shape l w Htip) as [top ->].
  repeat split. by exists top.
Qed.

Lemma positionHandHolderStep_below_scrolls_once_witness :
  let r := _positionHandHolderStep near_left_edge last_hook in
  this r = this last_hook
  /\ store r = store last_hook
  /\ exists top : Q, scrolls r = (scrolls last_hook ++ [top])%list.
Proof.
  apply (positionHandHolderStep_below_scrolls_once near_left_edge last_hook).
  reflexivity.
Defined.

(** X13.  The heuristic writes to the store only when it changes the
    side.  If the side after [_positionHandHolderStep] is the side before,
    the store is as it was.  If the side has changed, and the directive is
    not part of a group and its step is the current step of the store, then
    the store holds for its hand holder the side and the step from before
    the change. *)
Theorem positionHandHolderStep_records_replaced_side
    (l : Layout) (w : World) :
  let r := _positionHandHolderStep l w in
  (tip r = tip w -> store r = store w)
  /\ (tip r <> tip w ->
      truthy (_appearsInGroup (this w)) = false ->
      _handHolderStep (this w) = Some (Store._currentStep (store w)) ->
      Store.spread (Store._prevHandHolderPosition (store r))
        !! _handHolder (this w)
      = Some (Store.mkPrevPosition (tip w) (Store._currentStep (store w)))).
Proof.
  cbv zeta.
  destruct (positionHandHolderStep_shape l w)
    as (w' & [-> | (pos & -> & Hpos & _)] & [-> | [top ->]]);
    cbn [scroll store this tip]; unfold tip; cbn [scroll store this];
    (split; [intros Hsame | intros Hchanged Hgroup Hstep]);
    try reflexivity; try contradiction; try (symmetry in Hsame; contradiction).
  all: unfold _makePosition, Store.setPrevHandHolderStepPos;
    cbn [store]; rewrite Hgroup, Hstep, Z.eqb_refl; cbn;
    apply lookup_insert_eq.
Qed.

Lemma positionHandHolderStep_records_replaced_side_witness :
  store (_positionHandHolderStep near_left_edge last_hook) = store last_hook
  /\ Store.spread
       (Store._prevHandHolderPosition
          (store (_positionHandHolderStep near_left_edge hooked_on_the_left)))
       !! "learnAngular"
     = Some (Store.mkPrevPosition "left" 0).
Proof.
  split.
  - apply (proj1 (positionHandHolderStep_records_replaced_side
                    near_left_edge last_hook)).
    vm_compute. reflexivity.
  - apply (proj2 (positionHandHolderStep_records_replaced_side
                    near_left_edge hooked_on_the_left)).
    + vm_compute. discriminate.
    + reflexivity.
    + reflexivity.
Defined.

Lemma positionHandHolderStep_handHolder (l : Layout) (w : World) :
  _handHolder (this (_positionHandHolderStep l w)) = _handHolder (this w).
Proof.
  destruct (positionHandHolderStep_shape l w)
    as (w' & [-> | (pos & -> & _ & _)] & [-> | [top ->]]);
    reflexivity.
Qed.

(** X14.  For a hook that is part of a group nothing undoes the heuristic:
    when the store holds no override for its hand holder,
    [_resetHandHolderPosition] after [_positionHandHolderStep] changes
    nothing, so a side that the heuristic has replaced stays replaced. *)
Theorem positionHandHolderStep_in_group_is_not_undone
    (l : Layout) (w : World) :
  truthy (_appearsInGroup (this w)) = true ->
  Store.spread (Store._prevHandHolderPosition (store w))
    !! _handHolder (this w) = None ->
  _resetHandHolderPosition (_positionHandHolderStep l w)
  = _positionHandHolderStep l w.
Proof.
  intros Hgroup Hfresh. apply resetHandHolderPosition_missing.
  rewrite positionHandHolderStep_handHolder.
  destruct (positionHandHolderStep_store l w) as [-> | [pos ->]];
    [assumption |].
  by rewrite makePosition_in_group.
Qed.

Lemma positionHandHolderStep_in_group_is_not_undone_witness :
  _resetHandHolderPosition (_positionHandHolderStep near_left_edge
                              hooked_in_group)
  = _positionHandHolderStep near_left_edge hooked_in_group
  /\ tip (_positionHandHolderStep near_left_edge hooked_in_group) = "right".
Proof.
  split.
  - apply (positionHandHolderStep_in_group_is_not_undone near_left_edge
             hooked_in_group);
      reflexivity.
  - vm_compute. reflexivity.
Defined.

Lemma scrollToHookedElement_this l o offset w :
  this (_scrollToHookedElement l o offset w) = this w.
Proof. by destruct o. Qed.

(** The directive after the heuristic depends on the layout and on the
    directive before, not on the store or on earlier scroll requests. *)
Lemma positionHandHolderStep_this (l : Layout) (w w' : World) :
  this w = this w' ->
  this (_positionHandHolderStep l w) = this (_positionHandHolderStep l w').
Proof.
  intros Hthis.
  unfold _positionHandHolderStep, _positionIs, _anyPosition.
  rewrite Hthis. case_conditions;
    unfold _scrollVerticallyBy;
    rewrite ?scrollToHookedElement_this;
    cbn [scroll _makePosition this]; by rewrite ?Hthis.
Qed.

(** Where the heuristic puts a side in place: 'above' next to an element
    that leaves less than 532 pixels of the width, 'right' next to one that
    starts in the left half of the viewport, 'left' next to one that starts
    in the right half. *)
Lemma positionHandHolderStep_change (l : Layout) (w : World) :
  let r := _positionHandHolderStep l w in
  let narrow :=
    Qltb (viewportWidth l - rect_width l)%Q HAND_HOLDER_STEP_MAX_HEIGHT in
  this r = this w
  \/ (tip r = "above" /\ narrow = true)
  \/ tip r = "below"
  \/ (tip r = "right" /\ narrow = false
      /\ Qltb (rect_x l) (viewportWidth l / 2)%Q = true)
  \/ (tip r = "left" /\ narrow = false
      /\ Qltb (viewportWidth l / 2)%Q (rect_x l) = true).
Proof.
  cbv zeta. unfold _positionHandHolderStep. case_conditions;
    unfold _scrollVerticallyBy, tip;
    rewrite ?scrollToHookedElement_this;
    cbn [scroll _makePosition this with_tipPosition _tipPosition];
    tauto.
Qed.

(** X25.  On a fixed layout the heuristic does not oscillate: a second run
    leaves the directive, and so the side, as the first run has left it. *)
Theorem positionHandHolderStep_settles (l : Layout) (w : World) :
  this (_positionHandHolderStep l (_positionHandHolderStep l w))
  = this (_positionHandHolderStep l w).
Proof.
  destruct (positionHandHolderStep_change l w)
    as [Hsame | [[Htip Hnarrow] | [Htip | [(Htip & Hwide & Hleft)
                                          | (Htip & Hwide & Hright)]]]].
  - apply (positionHandHolderStep_this l (_positionHandHolderStep l w) w Hsame).
  - set (r := _positionHandHolderStep l w) in *.
    assert (Habove : _positionIs "above" r = true)
      by (unfold _positionIs; fold (tip r); rewrite Htip; reflexivity).
    unfold _positionHandHolderStep at 1. rewrite Hnarrow, Habove.
    unfold _scrollVerticallyBy. case_conditions;
      rewrite ?scrollToHookedElement_this; reflexivity.
  - set (r := _positionHandHolderStep l w) in *.
    destruct (positionHandHolderStep_below_shape l r Htip) as [top ->].
    reflexivity.
  - set (r := _positionHandHolderStep l w) in *.
    assert (Habove : _positionIs "above" r = false)
      by (unfold _positionIs; fold (tip r); rewrite Htip; reflexivity).
    assert (Hmatch : _anyPosition ["left"; "before"] r = false)
      by (unfold _anyPosition; fold (tip r); rewrite Htip; reflexivity).
    assert (Hnot : Qltb (viewportWidth l / 2)%Q (rect_x l) = false).
    { apply not_true_iff_false. intros Hgt.
      apply Qltb_lt in Hleft, Hgt.
      exact (Qlt_irrefl _ (Qlt_trans _ _ _ Hleft Hgt)). }
    unfold _positionHandHolderStep at 1.
    rewrite Hwide, Habove, Hmatch, Hnot, andb_false_r. cbn [andb].
    apply scrollToHookedElement_this.
  - set (r := _positionHandHolderStep l w) in *.
    assert (Habove : _positionIs "above" r = false)
      by (unfold _positionIs; fold (tip r); rewrite Htip; reflexivity).
    assert (Hmatch : _anyPosition ["right"; "after"] r = false)
      by (unfold _anyPosition; fold (tip r); rewrite Htip; reflexivity).
    assert (Hnot : Qltb (rect_x l) (viewportWidth l / 2)%Q = false).
    { apply not_true_iff_false. intros Hlt.
      apply Qltb_lt in Hright, Hlt.
      exact (Qlt_irrefl _ (Qlt_trans _ _ _ Hlt Hright)). }
    unfold _positionHandHolderStep at 1.
    rewrite Hwide, Habove, Hmatch, Hnot, andb_false_r. cbn [andb].
    apply scrollToHookedElement_this.
Qed.

(** X22.  A hook that is part of a group cannot be highlighted while no
    group is registered: as long as [_currentGroup] is [null] (from the
    construction of the store to the first call of [setCurrentGroup], and
    again after [ngOnDestroy]), its reaction to a step raises a
    [TypeError].  Once [setCurrentGroup] has been called the reaction
    succeeds, and it highlights the hook exactly at the steps that are
    registered for its group. *)
Theorem isInGroup_needs_a_registered_group
    (step : Z) (group : gmap Z string) (w : World) :
  truthy (_appearsInGroup (this w)) = true ->
  (Store._currentGroup (store w) = None ->
   _isInGroup step w = Throw TypeError)
  /\ (let w' := mkWorld (this w) (Store.setCurrentGroup group (store w))
                        (scrolls w) in
      exists highlighted : bool,
        _isInGroup step w' = Ok (Some highlighted)
        /\ (highlighted = true
            <-> Store.spread (Store._currentGroup (store w')) !! step
                = _appearsInGroup (this w)))
  /\ _isInGroup step
       (mkWorld (this w) (Store.ngOnDestroy (store w)) (scrolls w))
     = Throw TypeError.
Proof.
  intros Hgroup. unfold _isInGroup. cbn [this store]. rewrite Hgroup.
  cbn [negb]. split; [by intros -> |]. split; [| reflexivity].
  cbn. eexists. split; [reflexivity |]. apply bool_decide_eq_true.
Qed.

Lemma isInGroup_needs_a_registered_group_witness :
  _isInGroup 6 hooked_in_group = Throw TypeError
  /\ (let w' := mkWorld (this hooked_in_group)
                        (Store.setCurrentGroup {[ 6%Z := "angularBlog" ]}
                           (store hooked_in_group))
                        (scrolls hooked_in_group) in
      exists highlighted : bool,
        _isInGroup 6 w' = Ok (Some highlighted)
        /\ (highlighted = true
            <-> Store.spread (Store._currentGroup (store w')) !! 6%Z
                = _appearsInGroup (this hooked_in_group))).
Proof.
  destruct (isInGroup_needs_a_registered_group 6
              {[ 6%Z := "angularBlog" ]} hooked_in_group eq_refl)
    as (Hnull & Hset & _).
  split; [by apply Hnull | exact Hset].
Defined.

End HandHolderMore.

(** ** The tour button *)

Section TourButtonMore.
Import TourButton.

Lemma push_previous (toggle : bool) (p : Pipeline) :
  match snd (push toggle p) with
  | Some b =>
      b = toggle
      /\ previous p <> Some b
      /\ previous (fst (push toggle p)) = Some b
  | None => fst (push toggle p) = p
  end.
Proof.
  unfold push. destruct (latest p); [| reflexivity].
  destruct (Qleb 1200 _); [| reflexivity].
  destruct (bool_decide (previous p = Some toggle)) eqn:Hsame;
    [reflexivity |].
  apply bool_decide_eq_false in Hsame. cbn. auto.
Qed.

Lemma step_previous (e : event) (s : t) :
  match snd (step e s) with
  | Some b =>
      previous (pipeline s) <> Some b
      /\ previous (pipeline (fst (step e s))) = Some b
  | None => previous (pipeline (fst (step e s))) = previous (pipeline s)
  end.
Proof.
  destruct e; cbn [step fst snd]; try reflexivity.
  - unfold resized. by destruct (destroyed (observer s)).
  - unfold toggleTourBtn.
    pose proof (push_previous (negb (_toggleTourBtn s)) (pipeline s)) as H.
    destruct (push (negb (_toggleTourBtn s)) (pipeline s)) as [p [b |]];
      cbn in *; [tauto | congruence].
  - unfold resetTourBtn, toggleTourBtn.
    pose proof (push_previous (negb (_toggleTourBtn s)) (pipeline s)) as H.
    destruct (push (negb (_toggleTourBtn s)) (pipeline s)) as [p [b |]];
      cbn in *; [tauto | congruence].
Qed.

Lemma run_alternating (events : list event) :
  forall s : t,
    alternating_from (previous (pipeline s)) (values (run events s)).
Proof.
  induction events as [| e events IH]; intros s; [exact I |].
  cbn [run]. pose proof (step_previous e s) as Hstep.
  destruct (step e s) as [s' [b |]]; cbn in *.
  - destruct Hstep as [Hnew Hprevious]. split; [assumption |].
    rewrite <- Hprevious. apply IH.
  - rewrite <- Hstep. apply IH.
Qed.

(** X15.  A subscriber of [toggleTourBtn$] never receives the same value
    twice in a row, whatever happens between two deliveries (resizes below
    or above 1200 pixels, toggles that were filtered out). *)
Theorem toggleTourBtn_never_repeats
    (o : ResizeObserver) (enable : gmap string bool) (toggle : bool)
    (events : list event) :
  alternating_from None (values (emissions o enable toggle events)).
Proof.
  unfold emissions, subscribe.
  set (p0 := mkPipeline (if destroyed o then None else Some (_observe o))
                        None).
  pose proof (push_previous toggle p0) as Hpush.
  destruct (push toggle p0) as [p [b |]]; cbn in *.
  - destruct Hpush as (_ & _ & Hprevious). split; [discriminate |].
    rewrite <- Hprevious.
    apply (run_alternating events (mk o enable toggle p)).
  - rewrite Hpush.
    apply (run_alternating events (mk o enable toggle p0)).
Qed.

Lemma push_up_to_date (s : t) :
  up_to_date s ->
  push (negb (_toggleTourBtn s)) (pipeline s)
  = (mkPipeline (latest (pipeline s)) (Some (negb (_toggleTourBtn s))),
     Some (negb (_toggleTourBtn s))).
Proof.
  intros [(size & Hlatest & Hwide) Hprevious]. unfold push.
  rewrite Hlatest, Hprevious.
  apply Qle_bool_iff in Hwide. unfold Qleb. rewrite Hwide.
  rewrite bool_decide_eq_false_2; [reflexivity |].
  by destruct (_toggleTourBtn s).
Qed.

Lemma run_up_to_date (events : list event) :
  forall s : t,
    up_to_date s ->
    Forall wide_event events ->
    values (run events s) = toggled_values (_toggleTourBtn s) events.
Proof.
  induction events as [| e events IH]; intros s Hs Hwide; [reflexivity |].
  apply Forall_cons in Hwide as [He Hwide].
  destruct e; cbn [run step toggled_values received app].
  - assert (Htoggle : _toggleTourBtn (resized size s) = _toggleTourBtn s)
      by (unfold resized; by destruct (destroyed (observer s))).
    rewrite <- Htoggle. apply IH; [| assumption].
    unfold resized. destruct (destroyed (observer s)); [assumption |].
    destruct Hs as [_ Hprevious]. split; [| assumption].
    exists size. split; [reflexivity | exact He].
  - by apply (IH (observerDestroyed s)).
  - by apply (IH (customTourBtnToggle tourPage enable s)).
  - unfold toggleTourBtn. rewrite (push_up_to_date s Hs).
    cbn [received app values map snd]. f_equal.
    apply (IH (mk _ _ _ _)); [| assumption].
    destruct Hs as [Hlatest _]. split; [exact Hlatest | reflexivity].
  - unfold resetTourBtn, toggleTourBtn. rewrite (push_up_to_date s Hs).
    cbn [received app values map snd]. f_equal.
    apply (IH (mk _ _ _ _)); [| assumption].
    destruct Hs as [Hlatest _]. split; [exact Hlatest | reflexivity].
Qed.

(** X16.  While the viewport stays wide nothing is lost.  If the resize
    observer is alive when the subscriber subscribes and every size it
    emits, the current one included, is at least 1200 wide, the subscriber
    receives the current value of [_toggleTourBtn] on subscription and then
    the negated value for every call of [toggleTourBtn] or [resetTourBtn],
    in order. *)
Theorem toggleTourBtn_delivers_every_toggle_when_wide
    (o : ResizeObserver) (enable : gmap string bool) (toggle : bool)
    (events : list event) :
  destroyed o = false ->
  (1200 <= width (_observe o))%Q ->
  Forall wide_event events ->
  values (emissions o enable toggle events)
  = toggle :: toggled_values toggle events.
Proof.
  intros Halive Hwide Hevents. unfold emissions, subscribe, push.
  rewrite Halive. cbn [latest previous].
  apply Qle_bool_iff in Hwide as Hwide'. unfold Qleb. rewrite Hwide'.
  rewrite bool_decide_eq_false_2 by discriminate.
  cbn [received app values map snd]. f_equal.
  apply (run_up_to_date events (mk o enable toggle _)); [| assumption].
  split; [| reflexivity].
  exists (_observe o). split; [reflexivity | exact Hwide].
Qed.

Lemma toggleTourBtn_delivers_every_toggle_when_wide_witness :
  values (emissions (mkObserver (mkSize 1280 720) false) ∅ false
            [ToggleTourBtn; Resized (mkSize 1440 900); ResetTourBtn])
  = [false; true; false].
Proof.
  apply (toggleTourBtn_delivers_every_toggle_when_wide
           (mkObserver (mkSize 1280 720) false) ∅ false
           [ToggleTourBtn; Resized (mkSize 1440 900); ResetTourBtn]).
  - reflexivity.
  - vm_compute. discriminate.
  - repeat constructor; vm_compute; discriminate.
Defined.

Lemma enableTourBtnIfNeeded_lookup
    (published : bool) (enable : gmap string bool) (page : string) :
  _enableTourBtnIfNeeded published enable !! page
  = (fun old => if matches_any ["HomePage"] page then old else published)
      <$> enable !! page.
Proof.
  unfold _enableTourBtnIfNeeded. rewrite map_lookup_imap.
  by destruct (enable !! page).
Qed.

(** X17.  [toggleTourBtn] enables the button of every page except those
    whose name contains [HomePage], which keep their state, and adds or
    removes no page; a second call in a row leaves the buttons as the first
    call has left them and puts [_toggleTourBtn] back to what it was. *)
Theorem toggleTourBtn_enables_other_pages (s : t) :
  let s1 := fst (toggleTourBtn s) in
  let s2 := fst (toggleTourBtn s1) in
  (forall page : string,
     _enableTourBtn s1 !! page
     = (fun old => if matches_any ["HomePage"] page then old else true)
         <$> _enableTourBtn s !! page)
  /\ _enableTourBtn s2 = _enableTourBtn s1
  /\ _toggleTourBtn s1 = negb (_toggleTourBtn s)
  /\ _toggleTourBtn s2 = _toggleTourBtn s.
Proof.
  cbv zeta. unfold toggleTourBtn.
  destruct (push (negb (_toggleTourBtn s)) (pipeline s)) as [p1 out1].
  cbn [fst _enableTourBtn _toggleTourBtn pipeline].
  destruct (push (negb (negb (_toggleTourBtn s))) p1) as [p2 out2].
  cbn [fst _enableTourBtn _toggleTourBtn].
  split; [intros page; apply enableTourBtnIfNeeded_lookup |].
  split; [| split; [reflexivity | apply negb_involutive]].
  apply map_eq. intros page. rewrite !enableTourBtnIfNeeded_lookup.
  destruct (_enableTourBtn s !! page); [| reflexivity].
  by destruct (matches_any ["HomePage"] page).
Qed.

Lemma last_of_cons {A : Type} (l : list A) :
  forall a d : A, List.last (a :: l) d = List.last l a.
Proof.
  induction l as [| b l IH]; intros a d; [reflexivity |].
  change (List.last (a :: b :: l) d) with (List.last (b :: l) d).
  by rewrite !IH.
Qed.

Lemma push_size_spec (size : Size) (previous : option bool) :
  fst (push_size size previous) = Some (Qleb 1200 (width size))
  /\ match snd (push_size size previous) with
     | Some b =>
         previous <> Some b /\ snd (push_size size previous)
                              = fst (push_size size previous)
     | None => fst (push_size size previous) = previous
     end.
Proof.
  unfold push_size.
  destruct (bool_decide (previous = Some (Qleb 1200 (width size))))
    eqn:Hsame; cbn.
  - apply bool_decide_eq_true in Hsame. auto.
  - apply bool_decide_eq_false in Hsame. auto.
Qed.

(** After a step the state of [distinctUntilChanged] tells whether the
    observed width is at least 1200, the values received extend an
    alternating sequence, and the last of them is that state. *)
Lemma run_disable_spec (events : list event) :
  forall (o : ResizeObserver) (previous : option bool),
    previous = Some (Qleb 1200 (width (_observe o))) ->
    let final := fst (run_disable events (o, previous)) in
    let out := snd (run_disable events (o, previous)) in
    snd final = Some (Qleb 1200 (width (_observe (fst final))))
    /\ alternating_from previous out
    /\ List.last (map Some out) previous = snd final.
Proof.
  induction events as [| e events IH]; intros o previous Hprevious;
    cbv zeta; [cbn; auto |].
  cbn [run_disable].
  assert (Hstep :
    let s' := fst (step_disable e (o, previous)) in
    let out := snd (step_disable e (o, previous)) in
    snd s' = Some (Qleb 1200 (width (_observe (fst s'))))
    /\ ((out = [] /\ snd s' = previous)
        \/ exists b, out = [b] /\ previous <> Some b /\ snd s' = Some b)).
  { cbv zeta. destruct e; cbn [step_disable]; auto.
    destruct (destroyed o); [auto |].
    destruct (push_size_spec size previous) as [Hfst Hsnd].
    destruct (push_size size previous) as [previous' [b |]]; cbn in *.
    - destruct Hsnd as [Hnew Heq]. split; [assumption |].
      right. exists b. auto.
    - auto. }
  cbv zeta in Hstep.
  destruct (step_disable e (o, previous)) as [[o' previous'] out].
  cbn [fst snd] in Hstep. destruct Hstep as [Hinv Hout].
  specialize (IH o' previous' Hinv). cbv zeta in IH.
  destruct (run_disable events (o', previous')) as [final out'].
  cbn [fst snd] in *. destruct IH as (Hfinal & Halt & Hlast).
  split; [assumption |].
  destruct Hout as [[-> ->] | (b & -> & Hnew & ->)]; cbn [app map].
  - auto.
  - split; [split; assumption |].
    rewrite <- Hlast. apply last_of_cons.
Qed.

(** X18.  A subscriber of [disableEntirelyTourBtn] that subscribes while
    the resize observer is alive always knows whether the viewport is wide:
    it receives a value on subscription, consecutive values differ, and the
    last value received is [true] exactly when the width that the resize
    observer has emitted last is at least 1200. *)
Theorem disableEntirelyTourBtn_tracks_width
    (o : ResizeObserver) (events : list event) :
  destroyed o = false ->
  let final := fst (disableEntirelyTourBtn o events) in
  let out := snd (disableEntirelyTourBtn o events) in
  alternating_from None out
  /\ List.last (map Some out) None
     = Some (Qleb 1200 (width (_observe (fst final))))
  /\ (Qleb 1200 (width (_observe (fst final))) = true
      <-> (1200 <= width (_observe (fst final)))%Q).
Proof.
  intros Halive. cbv zeta.
  unfold disableEntirelyTourBtn, subscribe_disable, push_size.
  rewrite Halive. cbn [bool_decide decide].
  rewrite bool_decide_eq_false_2 by discriminate.
  cbn [option_list].
  pose proof (run_disable_spec events o
                (Some (Qleb 1200 (width (_observe o)))) eq_refl) as H.
  cbv zeta in H.
  destruct (run_disable events (o, Some (Qleb 1200 (width (_observe o)))))
    as [final out].
  cbn [fst snd app] in *. destruct H as (Hfinal & Halt & Hlast).
  split; [split; [discriminate | assumption] |].
  split; [| apply Qle_bool_iff].
  rewrite <- Hfinal, <- Hlast. cbn [map]. apply last_of_cons.
Qed.

Lemma disableEntirelyTourBtn_tracks_width_witness :
  let o := mkObserver (mkSize 1280 720) false in
  let events := [Resized (mkSize 1440 900); Resized (mkSize 800 600)] in
  let final := fst (disableEntirelyTourBtn o events) in
  let out := snd (disableEntirelyTourBtn o events) in
  alternating_from None out
  /\ List.last (map Some out) None
     = Some (Qleb 1200 (width (_observe (fst final))))
  /\ (Qleb 1200 (width (_observe (fst final))) = true
      <-> (1200 <= width (_observe (fst final)))%Q).
Proof.
  apply (disableEntirelyTourBtn_tracks_width
           (mkObserver (mkSize 1280 720) false)
           [Resized (mkSize 1440 900); Resized (mkSize 800 600)]).
  reflexivity.
Defined.

End TourButtonMore.

(** ** The scroll-end detector *)

Section ScrollStopMore.
Import ScrollStop.

Lemma fire_completed (timers : list (positive * time)) :
  forall emitted : list time,
    fold_left (fun acc timer => fire (snd timer) acc true) timers emitted
    = emitted.
Proof. induction timers as [| timer timers IH]; intros emitted; cbn; auto. Qed.

Lemma scroll_at_detached (t : time) (s : state) :
  listening s = false ->
  completed s = true ->
  listening (scroll_at t s) = false
  /\ completed (scroll_at t s) = true
  /\ emitted (scroll_at t s) = emitted s.
Proof.
  intros Hlistening Hcompleted. unfold scroll_at, advance.
  cbn [listening]. rewrite Hlistening, Hcompleted.
  cbn. by rewrite fire_completed.
Qed.

Lemma run_detached (scrolls : list time) :
  forall s : state,
    listening s = false ->
    completed s = true ->
    emitted (settle (fold_left (fun s t => scroll_at t s) scrolls s))
    = emitted s.
Proof.
  induction scrolls as [| t scrolls IH]; intros s Hlistening Hcompleted.
  - unfold settle. cbn. rewrite Hcompleted. apply fire_completed.
  - cbn [fold_left].
    destruct (scroll_at_detached t s Hlistening Hcompleted)
      as (Hlistening' & Hcompleted' & Hemitted).
    by rewrite IH.
Qed.

(** X19.  After [cleanup()] nothing is emitted any more: whatever state the
    listener is in, with a timer pending or not, and whatever scroll events
    are dispatched on the element afterwards, the emissions are those from
    before the call. *)
Theorem cleanup_silences (s : state) (scrolls : list time) :
  emitted (settle (fold_left (fun s t => scroll_at t s) scrolls (cleanup s)))
  = emitted s.
Proof. by rewrite run_detached. Qed.





Lemma debounced_ends_with_last (delay : N) (others : list time) :
  forall first : time,
    (exists earlier : list time,
        debounced delay (Some (first + delay)%N) others
        = (earlier ++ [(List.last others first + delay)%N])%list)
    /\ sublist (debounced delay (Some (first + delay)%N) others)
               (map (fun t => (t + delay)%N) (first :: others)).
Proof.
  induction others as [| t others IH]; intros first.
  - split; [by exists [] | reflexivity].
  - destruct (IH t) as [[earlier Hearlier] Hsub].
    cbn [debounced]. rewrite last_cons. split.
    + eexists. rewrite Hearlier, app_assoc. reflexivity.
    + destruct (first + delay <=? t)%N; cbn [app map].
      * by apply sublist_skip.
      * by apply sublist_cons.
Qed.

(** X21.  The end of scrolling is always reported, and no scroll event is
    reported twice: for scroll events dispatched in order, the last
    emission comes one delay after the last scroll event, and the emissions
    are, in order, among the times one delay after each scroll event. *)
Theorem last_scroll_is_reported
    (throttleBy : option N) (first : time) (others : list time) :
  let delay := default 300%N throttleBy in
  nondecreasing (first :: others) ->
  (exists earlier : list time,
      emissions throttleBy (first :: others)
      = (earlier ++ [(List.last others first + delay)%N])%list)
  /\ sublist (emissions throttleBy (first :: others))
             (map (fun t => (t + delay)%N) (first :: others)).
Proof.
  cbv zeta. intros Hsorted. rewrite (emissions_debounced _ _ Hsorted).
  cbn [debounced app]. apply debounced_ends_with_last.
Qed.

Lemma last_scroll_is_reported_witness :
  (exists earlier : list time,
      emissions None [0; 100; 900; 1000]%N
      = (earlier ++ [1300%N])%list)
  /\ sublist (emissions None [0; 100; 900; 1000]%N)
             (map (fun t => (t + 300)%N) [0; 100; 900; 1000]%N).
Proof.
  apply (last_scroll_is_reported None 0%N [100; 900; 1000]%N).
  cbn. lia.
Defined.

End ScrollStopMore.

(** ** The tutorial tip *)

Section StepComponentFacts.
Import StepComponent.

(** X23.  On the tip of the last step, Next is Skip: [onNext] leaves the
    component, the directive, the store and the timers exactly as [onSkip]
    does (the position is reset twice on that path, and the second reset
    changes nothing). *)
Theorem onNext_on_last_step_is_onSkip (c : t) :
  isLast c = true -> onNext c = onSkip c.
Proof.
  intros Hlast. unfold onNext. cbn [resetPosition isLast]. rewrite Hlast.
  unfold onSkip, throttleExecution, resetPosition, hideAnimation. cbn.
  by rewrite resetHandHolderPosition_twice.
Qed.

Lemma onNext_on_last_step_is_onSkip_witness :
  onNext last_tip = onSkip last_tip.
Proof. apply (onNext_on_last_step_is_onSkip last_tip). reflexivity. Defined.

(** X24.  Skip ends the tour.  [onSkip] hides the animation, resets the
    position of the directive at once and sets one timer, of 230 ms, for
    the closure that ends the tour.  When that closure runs on the state
    that [onSkip] has left, the current step is 0 and the tooltips are
    unloaded, [disposeOfTutorialTooltip] and then [lastStepCleanup] have
    been called, the animation is still hidden, the total number of steps
    is what it was, and the store holds no override for the hand holder of
    the directive. *)
Theorem skip_ends_the_tour (c : t) :
  let key := HandHolder._handHolder (HandHolder.this (world c)) in
  let before := HandHolder.store (world c) in
  timers (onSkip c) = (timers c ++ [(230%N, EndTour)])%list
  /\ HandHolder.this (world (onSkip c))
     = HandHolder.this (HandHolder._resetHandHolderPosition (world c))
  /\ (let c' := endTour (onSkip c) in
      let after := HandHolder.store (world c') in
      Store._currentStep after = 0%Z
      /\ Store._handHolderTooltips after = None
      /\ Store._allSteps after = Store._allSteps before
      /\ Store.spread (Store._prevHandHolderPosition after) !! key = None
      /\ _animationState c' = false
      /\ called c'
         = (called c ++ [DisposeOfTutorialTooltip; LastStepCleanup])%list).
Proof.
  cbv zeta.
  pose proof (resetHandHolderPosition_same_but_overrides (world c)) as Hsame.
  pose proof (resetHandHolderPosition_clears (world c)) as Hgone.
  split; [reflexivity |]. split; [reflexivity |].
  unfold endTour, onSkip, throttleExecution, resetPosition, hideAnimation.
  cbn.
  rewrite (same_but_overrides_allSteps _ _ Hsame).
  repeat split; assumption.
Qed.

End StepComponentFacts.
